(** * ts-utils: the functions of [src/arrays/index.ts]

    A shallow embedding of [compose], [pipeFunctions], [curry], [promisify],
    [chainAsync] and [runPromisesInSeries], and the properties of the
    specification that concern them; then the array utilities of the same
    file, and further properties of both.

    Layout: Part I embeds the JavaScript values and the source functions,
    Part II holds the theorems. *)

From Stdlib Require Import ZArith String List Bool Arith Lia.
From Stdlib Require Import Ascii DecimalString.
Import ListNotations.
Local Open Scope string_scope.
Local Open Scope nat_scope.
Local Open Scope list_scope.

(* ===================================================================== *)
(** * Part I: the embedding                                               *)
(* ===================================================================== *)

(** ** JavaScript values

    First-order values only: the callables handled by the combinators are
    modelled apart (records [func], programs [prog], handlers [pfn]), so a
    [value] is never itself callable and never a thenable. *)

Inductive value : Type :=
| VUndefined
| VNull
| VBool (b : bool)
| VNum (n : Z)
| VNaN
| VStr (s : string)
| VError (name msg : string).

(** ECMAScript [ToBoolean], as used by the conditional operator. *)
Definition truthy (v : value) : bool :=
  match v with
  | VUndefined | VNull | VNaN => false
  | VBool b => b
  | VNum n => negb (n =? 0)%Z
  | VStr s => negb (s =? "")%string
  | VError _ _ => true
  end.

Definition TypeError (msg : string) : value := VError "TypeError" msg.

Definition is_TypeError (v : value) : bool :=
  match v with
  | VError name _ => (name =? "TypeError")%string
  | _ => false
  end.

(** [a + b] on numbers; other operands are not modelled and give [NaN]. *)
Definition plus (a b : value) : value :=
  match a, b with
  | VNum x, VNum y => VNum (x + y)
  | _, _ => VNaN
  end.

Definition times (a b : value) : value :=
  match a, b with
  | VNum x, VNum y => VNum (x * y)
  | _, _ => VNaN
  end.

(** Absent arguments read as [undefined]. *)
Definition arg (i : nat) (args : list value) : value := nth i args VUndefined.

(** The outcome of evaluating an expression: a value, or a thrown value. *)
Inductive completion (A : Type) : Type :=
| Normal (a : A)
| Abrupt (e : value).
Arguments Normal {A} a.
Arguments Abrupt {A} e.

(** [Array.prototype.reduce] called without an initial value: the first
    element seeds the accumulator and the callback runs on the others; an
    empty array raises a TypeError.  The callbacks of this file only build
    closures, so the callback is a pure function here. *)
Definition reduce1 {A} (callback : A -> A -> A) (arr : list A) : completion A :=
  match arr with
  | [] => Abrupt (TypeError "Reduce of empty array with no initial value")
  | x :: xs => Normal (fold_left callback xs x)
  end.

(** [Array.prototype.reduce] with an initial value. *)
Definition reduce {A B} (callback : B -> A -> B) (arr : list A) (init : B) : B :=
  fold_left callback arr init.

(* --------------------------------------------------------------------- *)
(** ** Synchronous callables: compose, pipeFunctions, curry               *)
(* --------------------------------------------------------------------- *)

Module Sync.

(** Calling a function may read and change the world and may throw; what
    was changed before a throw stays changed. *)
Definition M (World A : Type) : Type := World -> completion A * World.

Definition ret {World A} (a : A) : M World A := fun w => (Normal a, w).

Definition throw {World A} (e : value) : M World A := fun w => (Abrupt e, w).

Definition bind {World A B} (m : M World A) (k : A -> M World B) : M World B :=
  fun w =>
    match m w with
    | (Normal a, w') => k a w'
    | (Abrupt e, w') => (Abrupt e, w')
    end.

Declare Scope js_scope.
Delimit Scope js_scope with js.
Notation "x <- m ;; k" := (bind m (fun x => k))
  (at level 100, m at next level, right associativity) : js_scope.
Local Open Scope js_scope.

(** A function object: its [length] property and its call behaviour on an
    argument list. *)
Record func (World : Type) : Type := mkFunc {
  fn_length : nat;
  fn_call : list value -> M World value
}.
Arguments mkFunc {World} fn_length fn_call.
Arguments fn_length {World} f.
Arguments fn_call {World} f args.

Section Combinators.
Context {World : Type}.

(** An arrow function with a single rest parameter, [(...args) => body]:
    its [length] is 0. *)
Definition arrow (body : list value -> M World value) : func World :=
  mkFunc 0 body.

(** The callback of [compose]: [(f, g) => (...args) => f(g(...args))]. *)
Definition compose_step (f g : func World) : func World :=
  arrow (fun args => v <- fn_call g args ;; fn_call f [v]).

(** [export const compose = (...fns) =>
      fns.reduce((f, g) => (...args) => f(g(...args)))] *)
Definition compose (fns : list (func World)) : completion (func World) :=
  reduce1 compose_step fns.

(** The callback of [pipeFunctions]: [(f, g) => (...args) => g(f(...args))]. *)
Definition pipe_step (f g : func World) : func World :=
  arrow (fun args => v <- fn_call f args ;; fn_call g [v]).

(** [export const pipeFunctions = (...fns) =>
      fns.reduce((f, g) => (...args) => g(f(...args)))] *)
Definition pipeFunctions (fns : list (func World)) : completion (func World) :=
  reduce1 pipe_step fns.

(** The call expression [e(...args)] where [e] evaluated to [r]: a throw
    while evaluating the callee leaves the call unevaluated. *)
Definition call_completion (r : completion (func World)) (args : list value)
  : M World value :=
  match r with
  | Normal f => fn_call f args
  | Abrupt e => throw e
  end.

(** What a call of [curry] evaluates to: the value returned by [fn], or the
    bound function [curry.bind(null, fn, arity, ...args)], which is its
    target's arguments and nothing else. *)
Inductive curried : Type :=
| Value (v : value)
| Bound (fn : func World) (arity : nat) (args : list value).

(** [export const curry = (fn, arity = fn.length, ...args) =>
      arity <= args.length ? fn(...args) : curry.bind(null, fn, arity, ...args)]
    The optional second argument is [None] when the caller leaves it out. *)
Definition curry (fn : func World) (arity : option nat) (args : list value)
  : M World curried :=
  let arity := match arity with Some a => a | None => fn_length fn end in
  if arity <=? length args
  then v <- fn_call fn args ;; ret (Value v)
  else ret (Bound fn arity args).

(** Calling what [curry] returned with further arguments [more]: a bound
    function calls [curry] on its bound arguments followed by [more]; a
    first-order value is not callable. *)
Definition call_curried (c : curried) (more : list value) : M World curried :=
  match c with
  | Bound fn arity args => curry fn (Some arity) (args ++ more)
  | Value _ => throw (TypeError "not a function")
  end.

(** [c(...g1)(...g2)...(...gn)] *)
Fixpoint call_groups (c : curried) (groups : list (list value)) : M World curried :=
  match groups with
  | [] => ret c
  | g :: rest => c' <- call_curried c g ;; call_groups c' rest
  end.

(** The right-to-left nesting [f1(f2(...fn(...args)))] written out, for a
    non-empty list; the empty nesting has no value. *)
Fixpoint nest_right (fns : list (func World)) (args : list value) : M World value :=
  match fns with
  | [] => throw VUndefined
  | [f] => fn_call f args
  | f :: rest => v <- nest_right rest args ;; fn_call f [v]
  end.

End Combinators.

(** A spy around [f]: every call appends its argument list to a log kept
    beside the world, then runs [f] on the world. *)
Definition spy {World} (f : func World) : func (World * list (list value)) :=
  mkFunc (fn_length f)
    (fun args w =>
       let '(r, w') := fn_call f args (fst w) in
       (r, (w', snd w ++ [args]))).

(** [const add3 = (a, b, c) => a + b + c], and the functions of the
    source's examples: [x => x + 5] and [(x, y) => x * y]. *)
Definition add3 : func unit :=
  mkFunc 3 (fun args => ret (plus (plus (arg 0 args) (arg 1 args)) (arg 2 args))).

Definition add5 : func unit :=
  mkFunc 1 (fun args => ret (plus (arg 0 args) (VNum 5))).

Definition multiply : func unit :=
  mkFunc 2 (fun args => ret (times (arg 0 args) (arg 1 args))).

End Sync.

(* --------------------------------------------------------------------- *)
(** ** Functions that are handed a callback                               *)
(* --------------------------------------------------------------------- *)

(** [promisify] and [chainAsync] each hand a callback to caller-supplied
    functions.  Such a function is modelled by what it does with the
    callback, which it takes as its last actual argument: it may read and
    write the world it shares with the other functions, produce observable
    output, call the callback synchronously (seeing what the call returns
    or throws), arrange for the callback to be called later
    ([setTimeout(() => cb(...args), delay)]), and finally return or throw. *)
Inductive prog (World : Type) : Type :=
| Return (v : value)
| Throw (e : value)
| Effect (msg : value) (k : prog World)
| Get (k : World -> prog World)
| Put (w : World) (k : prog World)
| Invoke (args : list value) (k : completion value -> prog World)
| Schedule (delay : nat) (args : list value) (k : prog World).
Arguments Return {World} v.
Arguments Throw {World} e.
Arguments Effect {World} msg k.
Arguments Get {World} k.
Arguments Put {World} w k.
Arguments Invoke {World} args k.
Arguments Schedule {World} delay args k.

(** [cb(...args)] outside any [try]: a throw of the callback propagates. *)
Definition propagate {World} (k : value -> prog World) (c : completion value)
  : prog World :=
  match c with
  | Normal v => k v
  | Abrupt e => Throw e
  end.

Section Exec.
Context {World St : Type}.
Variable get_world : St -> World.
Variable put_world : World -> St -> St.
Variable on_effect : value -> St -> St.
Variable on_invoke : list value -> St -> completion value * St.
Variable on_schedule : nat -> list value -> St -> St.

(** Running a body against a given callback. *)
Fixpoint exec (p : prog World) (s : St) : completion value * St :=
  match p with
  | Return v => (Normal v, s)
  | Throw e => (Abrupt e, s)
  | Effect msg k => exec k (on_effect msg s)
  | Get k => exec (k (get_world s)) s
  | Put w k => exec k (put_world w s)
  | Invoke args k => let '(c, s') := on_invoke args s in exec (k c) s'
  | Schedule delay args k => exec k (on_schedule delay args s)
  end.

End Exec.

Section Bodies.
Context {World : Type}.

(** The body never touches the callback. *)
Fixpoint silent (p : prog World) : Prop :=
  match p with
  | Return _ | Throw _ => True
  | Effect _ k | Put _ k => silent k
  | Get k => forall w, silent (k w)
  | Invoke _ _ => False
  | Schedule _ _ _ => False
  end.

(** The body uses the callback at most once, now or later. *)
Fixpoint at_most_once (p : prog World) : Prop :=
  match p with
  | Return _ | Throw _ => True
  | Effect _ k | Put _ k => at_most_once k
  | Get k => forall w, at_most_once (k w)
  | Invoke _ k => forall c, silent (k c)
  | Schedule _ _ k => silent k
  end.

(** The body neither throws nor uses the callback. *)
Fixpoint plain (p : prog World) : Prop :=
  match p with
  | Return _ => True
  | Effect _ k | Put _ k => plain k
  | Get k => forall w, plain (k w)
  | Throw _ | Invoke _ _ | Schedule _ _ _ => False
  end.

(** The body uses the callback at most once (one synchronous call, or
    one call arranged for later), lets a throw of the callback propagate,
    and throws nothing of its own. *)
Fixpoint polite (p : prog World) : Prop :=
  match p with
  | Return _ => True
  | Effect _ k | Put _ k => polite k
  | Get k => forall w, polite (k w)
  | Invoke _ k =>
      (forall v, plain (k (Normal v))) /\ (forall e, k (Abrupt e) = Throw e)
  | Schedule _ _ k => plain k
  | Throw _ => False
  end.

End Bodies.

(** *** Timers *)

Record timer : Type := mkTimer {
  due : nat;
  owner : nat;
  targs : list value
}.

(** The timer that fires next: the least due time, the earliest
    registered among equals; returned with the timers left. *)
Fixpoint take_due (ts : list timer) : option (timer * list timer) :=
  match ts with
  | [] => None
  | t :: rest =>
      match take_due rest with
      | None => Some (t, [])
      | Some (t', rest') =>
          if due t <=? due t' then Some (t, rest) else Some (t', t :: rest')
      end
  end.

(** How a deferred result stands: not settled, or settled once and for
    all with a value or with an error. *)
Inductive settlement : Type :=
| Pending
| Fulfilled (v : value)
| Rejected (e : value).

(* --------------------------------------------------------------------- *)
(** ** promisify                                                          *)
(* --------------------------------------------------------------------- *)

Module Promisify.

Inductive event : Type :=
| EvEffect (msg : value)
| EvCallback (cargs : list value)
| EvThrown (e : value).

(** The promise under construction and the runtime around it: the world
    of the caller's functions, the timers that will call the callback
    later, and a log of what happened. *)
Record state (World : Type) : Type := mkState {
  world : World;
  settled : settlement;
  clock : nat;
  timers : list timer;
  trace : list event
}.
Arguments mkState {World} world settled clock timers trace.
Arguments world {World} s.
Arguments settled {World} s.
Arguments clock {World} s.
Arguments timers {World} s.
Arguments trace {World} s.

Section Promise.
Context {World : Type}.
Local Abbreviation state := (state World).

Definition set_world (w : World) (s : state) : state :=
  mkState w (settled s) (clock s) (timers s) (trace s).

Definition log (ev : event) (s : state) : state :=
  mkState (world s) (settled s) (clock s) (timers s) (trace s ++ [ev]).

Definition add_timer (delay : nat) (cargs : list value) (s : state) : state :=
  mkState (world s) (settled s) (clock s)
          (timers s ++ [mkTimer (clock s + delay) 0 cargs]) (trace s).

(** The timer [t] fires, leaving the timers [rest]. *)
Definition fire (t : timer) (rest : list timer) (s : state) : state :=
  mkState (world s) (settled s) (Nat.max (clock s) (due t)) rest (trace s).

(** The resolving functions of a promise: the first call settles it, later
    calls do nothing.  A [value] is never a thenable, so [resolve] fulfils
    with it; a promise or another thenable handed to [resolve] would be
    followed instead, which is outside this embedding. *)
Definition resolve (v : value) (s : state) : state :=
  match settled s with
  | Pending => mkState (world s) (Fulfilled v) (clock s) (timers s) (trace s)
  | _ => s
  end.

Definition reject (e : value) (s : state) : state :=
  match settled s with
  | Pending => mkState (world s) (Rejected e) (clock s) (timers s) (trace s)
  | _ => s
  end.

(** [new Promise(executor)] in world [w]: the executor runs at once on a
    pending promise; if it throws, the promise is rejected with what it
    threw. *)
Definition new_Promise
    (executor : (value -> state -> state) -> (value -> state -> state) ->
                state -> completion value * state) (w : World) : state :=
  match executor resolve reject (mkState w Pending 0 [] []) with
  | (Normal _, s) => s
  | (Abrupt e, s) => reject e (log (EvThrown e) s)
  end.

(** [(err, result) => (err ? reject(err) : resolve(result))] *)
Definition callback (resolve reject : value -> state -> state)
    (cargs : list value) (s : state) : completion value * state :=
  let err := arg 0 cargs in
  let result := arg 1 cargs in
  (Normal VUndefined,
   (if truthy err then reject err else resolve result) (log (EvCallback cargs) s)).

(** [export const promisify = (fn) => (...args) =>
      new Promise((resolve, reject) =>
        fn(...args, (err, result) => (err ? reject(err) : resolve(result))))] *)
Definition promisify (fn : list value -> prog World) (args : list value)
  : World -> state :=
  new_Promise (fun resolve reject =>
    exec world set_world
         (fun msg => log (EvEffect msg))
         (callback resolve reject)
         add_timer
         (fn args)).

(** The event loop afterwards: each timer that fires calls the callback
    with the arguments it was registered with. *)
Fixpoint run_timers (fuel : nat) (s : state) : state :=
  match fuel with
  | 0 => s
  | S fuel' =>
      match take_due (timers s) with
      | None => s
      | Some (t, rest) =>
          run_timers fuel' (snd (callback resolve reject (targs t) (fire t rest s)))
      end
  end.

End Promise.

(** What a log says about the promise: the first callback call or the
    executor's throw, whichever is logged first, settles it. *)
Definition verdict (cargs : list value) : settlement :=
  if truthy (arg 0 cargs) then Rejected (arg 0 cargs) else Fulfilled (arg 1 cargs).

Fixpoint first_settling (tr : list event) : settlement :=
  match tr with
  | [] => Pending
  | EvCallback cargs :: _ => verdict cargs
  | EvThrown e :: _ => Rejected e
  | EvEffect _ :: rest => first_settling rest
  end.

(** The promise stands as its log says. *)
Definition consistent {World} (s : state World) : Prop :=
  settled s = first_settling (trace s).

Definition non_null (v : value) : Prop := v <> VNull /\ v <> VUndefined.

(** A function that calls back at once with [(err, result)], whatever
    its arguments. *)
Definition calls_back (err result : value) : list value -> prog unit :=
  fun _ => Invoke [err; result] (propagate Return).

End Promisify.

(* --------------------------------------------------------------------- *)
(** ** chainAsync                                                         *)
(* --------------------------------------------------------------------- *)

Module Chain.

(** Who calls [next]: the body of [chainAsync] itself, or step [i]. *)
Inductive caller : Type :=
| ByChain
| ByStep (i : nat).

(** The step a call by [who] starts when every earlier call was made by
    the step before. *)
Definition succ (who : caller) : nat :=
  match who with
  | ByChain => 0
  | ByStep i => S i
  end.

Inductive event : Type :=
| EvNext (who : caller)
| EvStart (i : nat)
| EvPastEnd
| EvEffect (i : nat) (msg : value)
| EvUncaught (e : value).

(** The world of the steps, the variable [curr] of the closure, the
    runtime's timers, and a log. *)
Record state (World : Type) : Type := mkState {
  world : World;
  curr : nat;
  clock : nat;
  timers : list timer;
  trace : list event
}.
Arguments mkState {World} world curr clock timers trace.
Arguments world {World} s.
Arguments curr {World} s.
Arguments clock {World} s.
Arguments timers {World} s.
Arguments trace {World} s.

(** The indices of the steps started, in the order of the log. *)
Fixpoint starts (tr : list event) : list nat :=
  match tr with
  | [] => []
  | EvStart i :: rest => i :: starts rest
  | _ :: rest => starts rest
  end.

(** A log in which every call of [next] by [who] is at once followed by
    the start of step [succ who], or by the failed call past the end when
    there is no such step, and in which no step starts otherwise. *)
Inductive linked (n : nat) : list event -> Prop :=
| linked_nil : linked n []
| linked_start who rest :
    succ who < n -> linked n rest ->
    linked n (EvNext who :: EvStart (succ who) :: rest)
| linked_past who rest :
    n <= succ who -> linked n rest ->
    linked n (EvNext who :: EvPastEnd :: rest)
| linked_effect i msg rest :
    linked n rest -> linked n (EvEffect i msg :: rest)
| linked_uncaught e rest :
    linked n rest -> linked n (EvUncaught e :: rest).

(** The call raised a TypeError. *)
Definition raised (c : completion value) : Prop :=
  exists e, c = Abrupt e /\ is_TypeError e = true.

Section Steps.
Context {World : Type}.
Local Abbreviation state := (state World).

Definition set_world (w : World) (s : state) : state :=
  mkState w (curr s) (clock s) (timers s) (trace s).

Definition log (ev : event) (s : state) : state :=
  mkState (world s) (curr s) (clock s) (timers s) (trace s ++ [ev]).

Definition set_curr (c : nat) (s : state) : state :=
  mkState (world s) c (clock s) (timers s) (trace s).

Definition add_timer (i : nat) (delay : nat) (cargs : list value) (s : state) : state :=
  mkState (world s) (curr s) (clock s)
          (timers s ++ [mkTimer (clock s + delay) i cargs]) (trace s).

(** The timer [t] fires, leaving the timers [rest]. *)
Definition fire (t : timer) (rest : list timer) (s : state) : state :=
  mkState (world s) (curr s) (Nat.max (clock s) (due t)) rest (trace s).

(** [let curr = 0], in world [w]. *)
Definition init (w : World) : state := mkState w 0 0 [] [].

(** At most one use of [next] is outstanding, a timer of the step that
    started last. *)
Definition one_agent (s : state) : Prop :=
  timers s = [] \/ exists t, timers s = [t] /\ S (owner t) = curr s.

Variable fns : list (prog World).

(** [const next = () => fns[curr++](next)]

    [fns[curr++]] reads the element and increments [curr] before the call
    is attempted, so [curr] has advanced even when the element is
    [undefined] and the call raises a TypeError.  [depth] is the room left
    on the call stack: [next] calls a step, which may call [next]. *)
Fixpoint next (depth : nat) (who : caller) (s : state) : completion value * state :=
  match depth with
  | 0 => (Abrupt (VError "RangeError" "Maximum call stack size exceeded"), s)
  | S depth' =>
      let i := curr s in
      let s1 := set_curr (S i) (log (EvNext who) s) in
      match nth_error fns i with
      | None =>
          (Abrupt (TypeError "fns[(curr++)] is not a function"), log EvPastEnd s1)
      | Some step =>
          exec world set_world
               (fun msg => log (EvEffect i msg))
               (fun _ => next depth' (ByStep i))
               (add_timer i)
               step
               (log (EvStart i) s1)
      end
  end.

(** The body of step [i] run with [depth] levels of stack left. *)
Definition run_step (depth i : nat) : prog World -> state -> completion value * state :=
  exec world set_world
       (fun msg => log (EvEffect i msg))
       (fun _ => next depth (ByStep i))
       (add_timer i).

(** Every nested call of [next] finds a larger [curr], so this much stack
    is never used up (lemma [next_depth_enough]). *)
Definition stack : nat := S (length fns).

(** [export const chainAsync = (fns) => {
      let curr = 0
      const next = () => fns[curr++](next)
      next()
    }], called in world [w]. *)
Definition chainAsync (w : World) : completion value * state :=
  match next stack ByChain (init w) with
  | (Normal _, s) => (Normal VUndefined, s)
  | (Abrupt e, s) => (Abrupt e, s)
  end.

(** The event loop afterwards: a timer registered by step [i] calls [next]
    from the top level; what it throws is an uncaught error. *)
Fixpoint run_timers (fuel : nat) (s : state) : state :=
  match fuel with
  | 0 => s
  | S fuel' =>
      match take_due (timers s) with
      | None => s
      | Some (t, rest) =>
          match next stack (ByStep (owner t)) (fire t rest s) with
          | (Normal _, s2) => run_timers fuel' s2
          | (Abrupt e, s2) => run_timers fuel' (log (EvUncaught e) s2)
          end
      end
  end.

(** [chainAsync(fns)] followed by [fuel] turns of the event loop. *)
Definition chainAsync_then (w : World) (fuel : nat) : state :=
  run_timers fuel (snd (chainAsync w)).

(** The steps started so far are the first [curr] of the list, in order. *)
Definition in_order (s : state) : Prop :=
  starts (trace s) = seq 0 (Nat.min (curr s) (length fns)).

(** [s'] continues the log of [s] by a linked log. *)
Definition extends (s s' : state) : Prop :=
  exists evs, trace s' = trace s ++ evs /\ linked (length fns) evs.

(** The last step of the list called [next]. *)
Definition last_called (evs : list event) : Prop :=
  In (EvNext (ByStep (length fns - 1))) evs.

(** Either the run raised and the last step called [next], or it returned
    and the last step did not. *)
Definition outcome (c : completion value) (evs : list event) : Prop :=
  (raised c /\ last_called evs) \/ ((exists v, c = Normal v) /\ ~ last_called evs).

End Steps.

(** The number of calls of [next] in a log. *)
Fixpoint calls_of_next (tr : list event) : nat :=
  match tr with
  | [] => 0
  | EvNext _ :: rest => S (calls_of_next rest)
  | _ :: rest => calls_of_next rest
  end.

(** [curr] counts the calls of [next]. *)
Definition counted {World} (s : state World) : Prop :=
  calls_of_next (trace s) = curr s.

(** Steps used by the examples. *)
Definition call_next : prog unit := Invoke [] (propagate Return).
Definition call_next_twice : prog unit :=
  Invoke [] (propagate (fun _ => Invoke [] (propagate Return))).
Definition stop : prog unit := Return VUndefined.
Definition later (delay : nat) : prog unit := Schedule delay [] (Return VUndefined).
Definition call_next_caught : prog unit := Invoke [] (fun _ => Return VUndefined).

(** The example of the source's documentation:
    [next => { console.log('0 seconds'); setTimeout(next, 1000); }],
    [next => { console.log('1 second');  setTimeout(next, 1000); }],
    [next => { console.log('2 seconds'); }]. *)
Definition doc_example : list (prog unit) :=
  [ Effect (VStr "0 seconds") (Schedule 1000 [] (Return VUndefined));
    Effect (VStr "1 second") (Schedule 1000 [] (Return VUndefined));
    Effect (VStr "2 seconds") (Return VUndefined) ].

(** Two steps that share a flag: the first sets it and goes on, the
    second goes on only when it finds the flag set. *)
Definition set_flag : prog bool := Put true (Invoke [] (propagate Return)).
Definition if_flag : prog bool :=
  Get (fun flag : bool => if flag then Invoke [] (propagate Return) else Return VUndefined).

End Chain.

(* --------------------------------------------------------------------- *)
(** ** runPromisesInSeries                                                *)
(* --------------------------------------------------------------------- *)

Module Series.

(** A promise is modelled by the process that leads to its settlement:
    run on the world, it gives how the promise ends up ([Pending] when it
    never settles) and the world at that point.  Every promise of the
    chain built below has one consumer, so no process is run twice. *)
Definition promise (World : Type) : Type := World -> settlement * World.

(** A function handed to [then]: called with the fulfilment value, it
    acts on the world and returns a promise, or throws. *)
Definition pfn (World : Type) : Type :=
  value -> World -> completion (promise World) * World.

Section Promises.
Context {World : Type}.

(** [Promise.resolve(v)] for a value [v]. *)
Definition Promise_resolve (v : value) : promise World :=
  fun w => (Fulfilled v, w).

Definition Promise_reject (e : value) : promise World :=
  fun w => (Rejected e, w).

Definition never : promise World :=
  fun w => (Pending, w).

(** [p.then(onFulfilled)], no rejection handler: once [p] is fulfilled the
    handler is called with the value and the new promise follows the
    promise the handler returns; it is rejected with what the handler
    throws; a rejection of [p] passes through with the handler left
    uncalled; and while [p] is pending nothing happens. *)
Definition then_ (p : promise World) (onFulfilled : pfn World) : promise World :=
  fun w =>
    match p w with
    | (Fulfilled v, w1) =>
        match onFulfilled v w1 with
        | (Normal q, w2) => q w2
        | (Abrupt e, w2) => (Rejected e, w2)
        end
    | (Rejected e, w1) => (Rejected e, w1)
    | (Pending, w1) => (Pending, w1)
    end.

(** [export const runPromisesInSeries = (ps) =>
      ps.reduce((p, next) => p.then(next), Promise.resolve())] *)
Definition runPromisesInSeries (ps : list (pfn World)) : promise World :=
  reduce (fun p next => then_ p next) ps (Promise_resolve VUndefined).

(** The series written as a loop: call the functions one after the other,
    feeding each the value the one before was fulfilled with, and stop at
    the first that throws, is rejected or never settles. *)
Fixpoint in_series (ps : list (pfn World)) (v : value) : promise World :=
  match ps with
  | [] => Promise_resolve v
  | f :: rest =>
      fun w =>
        match f v w with
        | (Normal q, w1) =>
            match q w1 with
            | (Fulfilled v', w2) => in_series rest v' w2
            | (Rejected e, w2) => (Rejected e, w2)
            | (Pending, w2) => (Pending, w2)
            end
        | (Abrupt e, w1) => (Rejected e, w1)
        end
  end.

End Promises.

(** What a spy records about function [i]: it was called with [v]; the
    promise it returned settled; it threw. *)
Inductive event : Type :=
| EvCall (i : nat) (v : value)
| EvSettled (i : nat) (s : settlement)
| EvThrew (i : nat) (e : value).

Definition settle_event (i : nat) (s : settlement) : list event :=
  match s with
  | Pending => []
  | _ => [EvSettled i s]
  end.

(** A spy around function [i]: it logs the call beside the world, runs the
    function, and logs the settlement of the promise returned when that
    promise settles. *)
Definition spy {World} (i : nat) (f : pfn World) : pfn (World * list event) :=
  fun v w =>
    let tr := snd w ++ [EvCall i v] in
    match f v (fst w) with
    | (Normal q, w1) =>
        (Normal (fun w' =>
                   let '(s, w2) := q (fst w') in
                   (s, (w2, snd w' ++ settle_event i s))),
         (w1, tr))
    | (Abrupt e, w1) => (Abrupt e, (w1, tr ++ [EvThrew i e]))
    end.

(** Spies around the functions of a list, numbered from [i]. *)
Fixpoint spies {World} (i : nat) (ps : list (pfn World)) : list (pfn (World * list event)) :=
  match ps with
  | [] => []
  | f :: rest => spy i f :: spies (S i) rest
  end.

(** The indices of the functions called, in the order of the log. *)
Fixpoint calls (tr : list event) : list nat :=
  match tr with
  | [] => []
  | EvCall i _ :: rest => i :: calls rest
  | _ :: rest => calls rest
  end.

(** The logs a spied series can leave, from function [i] on, with [n]
    functions left and [v] the value handed to the next one; the last
    component is how the whole series ends. *)
Inductive series_log : nat -> nat -> value -> list event -> settlement -> Prop :=
| log_done i v :
    series_log i 0 v [] (Fulfilled v)
| log_fulfilled i n v v' evs s :
    series_log (S i) n v' evs s ->
    series_log i (S n) v (EvCall i v :: EvSettled i (Fulfilled v') :: evs) s
| log_rejected i n v e :
    series_log i (S n) v [EvCall i v; EvSettled i (Rejected e)] (Rejected e)
| log_threw i n v e :
    series_log i (S n) v [EvCall i v; EvThrew i e] (Rejected e)
| log_pending i n v :
    series_log i (S n) v [EvCall i v] Pending.

Definition index (ev : event) : nat :=
  match ev with
  | EvCall i _ | EvSettled i _ | EvThrew i _ => i
  end.

(** Functions used by the examples: [() => Promise.resolve(1)],
    [prev => Promise.resolve(prev + 1)], [() => Promise.reject(e)]. *)
Definition resolve_one : pfn unit :=
  fun _ w => (Normal (Promise_resolve (VNum 1)), w).

Definition resolve_succ : pfn unit :=
  fun prev w => (Normal (Promise_resolve (plus prev (VNum 1))), w).

Definition reject_with (e : value) : pfn unit :=
  fun _ w => (Normal (Promise_reject e), w).

(** [() => new Promise(() => {})], a promise that never settles, and
    [() => { throw e }]. *)
Definition stall : pfn unit :=
  fun _ w => (Normal never, w).

Definition throw_now (e : value) : pfn unit :=
  fun _ w => (Abrupt e, w).

End Series.

(* --------------------------------------------------------------------- *)
(** ** Arrays: the other functions of [src/arrays/index.ts]               *)
(* --------------------------------------------------------------------- *)

Module Arrays.

Local Open Scope Z_scope.

(** *** Equality of values *)

Definition value_eq_dec (a b : value) : {a = b} + {a <> b}.
Proof.
  decide equality; try apply string_dec; try apply Z.eq_dec; apply bool_dec.
Defined.

(** A primitive value: anything but an object.  The code compares
    objects by identity, which a [value] does not carry, so the
    comparisons below are those of the code on primitive values; on error
    objects they go by the fields, and the properties that rest on a
    comparison are stated for primitive values. *)
Definition primitive (v : value) : bool :=
  match v with
  | VError _ _ => false
  | _ => true
  end.

Definition primitives (arr : list value) : bool := forallb primitive arr.

(** SameValueZero, the comparison of [Set] and of [Array.prototype.includes]:
    [NaN] is the same as [NaN].  (Numbers are integers here, so there is one
    zero.) *)
Definition same_value_zero (a b : value) : bool :=
  if value_eq_dec a b then true else false.

(** [a === b], the comparison of [indexOf] and [lastIndexOf]: [NaN] equals
    nothing, itself included. *)
Definition strict_equals (a b : value) : bool :=
  match a, b with
  | VNaN, _ | _, VNaN => false
  | _, _ => same_value_zero a b
  end.


(** [Number.isSafeInteger(n)]: up to 2^53 - 1 in size, the range in which
    the sums and differences of the code, made on doubles, are exact when
    their operands and result are in it. *)
Definition safe_integer (n : Z) : Prop :=
  -9007199254740991 <= n <= 9007199254740991.

(** *** The array methods the functions use *)

(** An optional numeric parameter with default [d]. *)
Definition or_default (d : Z) (n : option Z) : Z :=
  match n with
  | Some k => k
  | None => d
  end.

(** [arr[i]] for an integer [i]: [undefined] outside the array. *)
Definition at_ (arr : list value) (i : Z) : value :=
  if i <? 0 then VUndefined else nth (Z.to_nat i) arr VUndefined.

(** A relative index of [slice] and [splice]: counted from the end when
    negative, and clamped to the array. *)
Definition relative (len k : Z) : Z :=
  if k <? 0 then Z.max (len + k) 0 else Z.min k len.

(** [arr.slice(start, end)] *)
Definition slice {A} (arr : list A) (start end_ : Z) : list A :=
  let len := Z.of_nat (length arr) in
  let k := relative len start in
  let final := relative len end_ in
  firstn (Z.to_nat (final - k)) (skipn (Z.to_nat k) arr).

(** [arr.slice(start)] *)
Definition slice_from {A} (arr : list A) (start : Z) : list A :=
  slice arr start (Z.of_nat (length arr)).

(** [arr.filter((e, i) => f(e, i))], the index counted from [i]. *)
Fixpoint filter_from {A} (f : A -> Z -> bool) (i : Z) (arr : list A) : list A :=
  match arr with
  | [] => []
  | x :: rest =>
      if f x i then x :: filter_from f (i + 1) rest else filter_from f (i + 1) rest
  end.

Definition filteri {A} (f : A -> Z -> bool) (arr : list A) : list A :=
  filter_from f 0 arr.

(** [arr.includes(x)] *)
Definition includes (arr : list value) (x : value) : bool :=
  existsb (same_value_zero x) arr.

(** [arr.indexOf(x)], the index counted from [i]: the first index whose
    element is [=== x], or -1. *)
Fixpoint indexOf_from (i : Z) (arr : list value) (x : value) : Z :=
  match arr with
  | [] => -1
  | y :: rest => if strict_equals y x then i else indexOf_from (i + 1) rest x
  end.

Definition indexOf (arr : list value) (x : value) : Z := indexOf_from 0 arr x.

(** [arr.lastIndexOf(x)], the index counted from [i]: the last index whose
    element is [=== x], or -1. *)
Fixpoint lastIndexOf_from (i : Z) (arr : list value) (x : value) : Z :=
  match arr with
  | [] => -1
  | y :: rest =>
      let j := lastIndexOf_from (i + 1) rest x in
      if j =? -1 then (if strict_equals y x then i else -1) else j
  end.


(** [arr.find(b => f(b))]: the first element on which [f] is truthy, or
    [undefined]. *)
Fixpoint find_ (f : value -> value) (arr : list value) : value :=
  match arr with
  | [] => VUndefined
  | b :: rest => if truthy (f b) then b else find_ f rest
  end.

(** [arr.splice(start, 1)]: what is left of [arr]. *)
Definition splice1 {A} (arr : list A) (start : Z) : list A :=
  let k := Z.to_nat (relative (Z.of_nat (length arr)) start) in
  firstn k arr ++ skipn (S k) arr.

(** A [Set] holds its elements once each, in insertion order. *)
Definition Set_has (s : list value) (x : value) : bool :=
  existsb (same_value_zero x) s.

Definition Set_add (s : list value) (x : value) : list value :=
  if Set_has s x then s else s ++ [x].

(** [new Set(arr)]; spreading the set gives the list back. *)
Definition new_Set (arr : list value) : list value :=
  fold_left Set_add arr [].

(** *** Parts of an array *)

(** [export const head = (arr) => arr[0]] *)
Definition head (arr : list value) : value := at_ arr 0.

(** [const last = (arr) => arr[arr.length - 1]] *)
Definition last (arr : list value) : value :=
  at_ arr (Z.of_nat (length arr) - 1).

(** [export const initial = (arr) => arr.slice(0, -1)] *)
Definition initial {A} (arr : list A) : list A := slice arr 0 (-1).

(** [export const tail = (arr) => (arr.length > 1 ? arr.slice(1) : arr)] *)
Definition tail {A} (arr : list A) : list A :=
  if 1 <? Z.of_nat (length arr) then slice_from arr 1 else arr.

(** [export const take = (arr, n = 1) => arr.slice(0, n)] *)
Definition take {A} (arr : list A) (n : option Z) : list A :=
  slice arr 0 (or_default 1 n).

(** [export const takeRight = (arr, n = 1) =>
      arr.slice(arr.length - n, arr.length)] *)
Definition takeRight {A} (arr : list A) (n : option Z) : list A :=
  let n := or_default 1 n in
  slice arr (Z.of_nat (length arr) - n) (Z.of_nat (length arr)).

(** [export const dropRight = (arr, n = 1) =>
      n < arr.length ? arr.slice(0, arr.length - n) : []] *)
Definition dropRight {A} (arr : list A) (n : option Z) : list A :=
  let n := or_default 1 n in
  if n <? Z.of_nat (length arr)
  then slice arr 0 (Z.of_nat (length arr) - n)
  else [].

(** [export const nthElement = (arr, n = 0) =>
      (n > 0 ? arr.slice(n, n + 1) : arr.slice(n))[0]] *)
Definition nthElement (arr : list value) (n : option Z) : value :=
  let n := or_default 0 n in
  at_ (if 0 <? n then slice arr n (n + 1) else slice_from arr n) 0.







(** The largest length an array can have, 2^32 - 1: [Array.from] raises a
    RangeError when asked for more. *)
Definition max_array_length : Z := 4294967295.

(** [export const initializeArrayWithRange = (end, start = 0) =>
      Array.from({ length: end + 1 - start }).map((v, i) => i + start)]
    [None] stands for the RangeError of a length that is too large; a
    negative length counts as 0.  The arithmetic is that of the integers,
    which is the code's for safe integers [end] and [start]. *)
Definition initializeArrayWithRange (end_ : Z) (start : option Z)
  : option (list value) :=
  let start := or_default 0 start in
  let length := end_ + 1 - start in
  if length <=? max_array_length
  then Some (map (fun i => VNum (Z.of_nat i + start)) (seq 0 (Z.to_nat length)))
  else None.

(** [Math.max(...lengths)] taken through [ToLength]: 0 when there are no
    lengths, the maximum being [-Infinity]. *)
Definition max_length (lengths : list nat) : nat := fold_right Nat.max 0%nat lengths.

(** [export const zip = (...arrays) => {
      const maxLength = Math.max(...arrays.map(x => x.length))
      return Array.from({ length: maxLength }).map((_, i) => {
        return Array.from({ length: arrays.length }, (_, k) => arrays[k][i])
      })
    }] *)
Definition zip (arrays : list (list value)) : list (list value) :=
  let maxLength := max_length (map (fun x => length x) arrays) in
  map (fun i =>
         map (fun k => nth i (nth k arrays []) VUndefined)
             (seq 0 (length arrays)))
      (seq 0 maxLength).

(** *** Arrays as collections of values *)

(** [export const compact = (arr) => arr.filter(Boolean)] *)
Definition compact (arr : list value) : list value := filter truthy arr.

(** [export const countOccurrences = (arr, value) =>
      arr.reduce((a, v) => (v === value ? a + 1 : a + 0), 0)] *)
Definition countOccurrences (arr : list value) (value : value) : Z :=
  reduce (fun a v => if strict_equals v value then a + 1 else a + 0) arr 0.

(** [export const difference = (a, b) => {
      const s = new Set(b)
      return a.filter(x => !s.has(x))
    }] *)
Definition difference (a b : list value) : list value :=
  let s := new_Set b in
  filter (fun x => negb (Set_has s x)) a.

(** [export const intersection = (a, b) => {
      const s = new Set(b)
      return a.filter(x => s.has(x))
    }] *)
Definition intersection (a b : list value) : list value :=
  let s := new_Set b in
  filter (fun x => Set_has s x) a.

(** [export const similarity = (arr, values) =>
      arr.filter(v => values.includes(v))] *)
Definition similarity (arr values : list value) : list value :=
  filter (fun v => includes values v) arr.

(** [export const without = (arr, ...args) =>
      arr.filter(v => !args.includes(v))] *)
Definition without (arr args : list value) : list value :=
  filter (fun v => negb (includes args v)) arr.

(** [export const distinctValuesOfArray = (arr) => [...new Set(arr)]] *)
Definition distinctValuesOfArray (arr : list value) : list value := new_Set arr.

(** [export const union = (a, b) => Array.from(new Set([...a, ...b]))] *)
Definition union (a b : list value) : list value := new_Set (a ++ b).

(** [export const symmetricDifference = (a, b) => {
      const sA = new Set(a)
      const sB = new Set(b)
      return [...a.filter(x => !sB.has(x)), ...b.filter(x => !sA.has(x))]
    }] *)
Definition symmetricDifference (a b : list value) : list value :=
  let sA := new_Set a in
  let sB := new_Set b in
  filter (fun x => negb (Set_has sB x)) a ++ filter (fun x => negb (Set_has sA x)) b.


(** [export const differenceWith = (arr, val, comp) =>
      arr.filter(a => !val.find(b => comp(a, b)))] *)
Definition differenceWith (arr val : list value) (comp : value -> value -> value)
  : list value :=
  filter (fun a => negb (truthy (find_ (fun b => comp a b) val))) arr.

(** [export const dropElements = (arr, func) => {
      while (arr.length > 0 && !func(arr[0])) arr = arr.slice(1)
      return arr
    }] *)
Fixpoint dropElements (arr : list value) (func : value -> value) : list value :=
  match arr with
  | [] => []
  | x :: rest => if truthy (func x) then arr else dropElements rest func
  end.

(** *** Functions that change the array they are given

    Each returns its result together with the contents the array has
    afterwards. *)

(** [arr.map((v, i) => (pullArr.includes(i) ? removed.push(v) : v))] with
    the array [removed] it fills on the way: [push] returns the new length,
    which takes the place of the value in the mapped array. *)
Fixpoint map_pushing (pullArr : list value) (i : Z) (removed : list value)
    (arr : list value) : list value * list value :=
  match arr with
  | [] => (removed, [])
  | v :: rest =>
      if includes pullArr (VNum i)
      then
        let removed' := removed ++ [v] in
        let '(removed'', mapped) := map_pushing pullArr (i + 1) removed' rest in
        (removed'', VNum (Z.of_nat (length removed')) :: mapped)
      else
        let '(removed'', mapped) := map_pushing pullArr (i + 1) removed rest in
        (removed'', v :: mapped)
  end.

(** [export const pullAtIndex = (arr, pullArr) => {
      let removed = []
      let pulled = arr
        .map((v, i) => (pullArr.includes(i) ? removed.push(v) : v))
        .filter((v, i) => !pullArr.includes(i))
      arr.length = 0
      pulled.forEach(v => arr.push(v))
      return removed
    }] *)
Definition pullAtIndex (arr pullArr : list value) : list value * list value :=
  let '(removed, mapped) := map_pushing pullArr 0 [] arr in
  let pulled := filteri (fun v i => negb (includes pullArr (VNum i))) mapped in
  (removed, pulled).

(** [export const pullAtValue = (arr, pullArr) => {
      let removed = []
      let pushToRemove = arr.forEach(
        (v, i) => (pullArr.includes(v) ? removed.push(v) : v))
      let mutateTo = arr.filter((v, i) => !pullArr.includes(v))
      arr.length = 0
      mutateTo.forEach(v => arr.push(v))
      return removed
    }] *)
Definition pullAtValue (arr pullArr : list value) : list value * list value :=
  let removed :=
    fold_left (fun removed v => if includes pullArr v then removed ++ [v] else removed)
              arr [] in
  let mutateTo := filter (fun v => negb (includes pullArr v)) arr in
  (removed, mutateTo).

(** [export const remove = (arr, func) =>
      Array.isArray(arr)
        ? arr.filter(func).reduce((acc, val) => {
            arr.splice(arr.indexOf(val), 1)
            return acc.concat(val)
          }, [])
        : []]
    [func] is called with the value, its index and the array; [indexOf]
    gives -1 for a value that equals nothing, and [splice(-1, 1)] then takes
    the last element away.  The elements are values, none of them an
    array, so [acc.concat(val)] adds [val] itself; an element that is an
    array would have its own elements added instead. *)
Definition remove (arr : list value) (func : value -> Z -> list value -> value)
  : list value * list value :=
  reduce (fun (st : list value * list value) val =>
            let '(acc, arr) := st in
            (acc ++ [val], splice1 arr (indexOf arr val)))
         (filteri (fun v i => truthy (func v i arr)) arr)
         ([], arr).


(** *** Nested arrays *)

(** An element of an array that may hold arrays. *)
#[warnings="-register-all"]
Inductive item : Type :=
| Atom (v : value)
| Arr (elems : list item).

(** [a.concat(v)]: an array argument is spread, one level deep. *)
Definition concat1 (a : list item) (v : item) : list item :=
  match v with
  | Arr elems => a ++ elems
  | Atom _ => a ++ [v]
  end.

(** [export const flatten = (arr) => arr.reduce((a, v) => a.concat(v), [])] *)
Definition flatten (arr : list item) : list item :=
  reduce (fun a v => concat1 a v) arr [].

(** [export const deepFlatten = (arr) => {
      return [].concat(...arr.map(v => (Array.isArray(v) ? deepFlatten(v) : v)))
    }]
    [deepFlatten_elem] is the function mapped over the array. *)
Fixpoint deepFlatten_elem (v : item) : item :=
  match v with
  | Arr elems => Arr (fold_left concat1 (map deepFlatten_elem elems) [])
  | Atom _ => v
  end.

Definition deepFlatten (arr : list item) : list item :=
  fold_left concat1 (map deepFlatten_elem arr) [].

(** The values at the leaves of a nested array, from left to right. *)
Fixpoint leaves (v : item) : list value :=
  match v with
  | Atom x => [x]
  | Arr elems => flat_map leaves elems
  end.

(** No element is an array. *)
Definition flat (arr : list item) : Prop :=
  Forall (fun v => exists x, v = Atom x) arr.

(** What [concat] adds for one argument. *)
Definition spread (v : item) : list item :=
  match v with
  | Arr elems => elems
  | Atom _ => [v]
  end.

(** *** pull: values compared as text *)

(** [String(v)]; a number is written in decimal digits, as the code
    writes the integers below 10^21 in size (larger ones get an
    exponent). *)
Definition to_string (v : value) : string :=
  match v with
  | VUndefined => "undefined"
  | VNull => "null"
  | VBool true => "true"
  | VBool false => "false"
  | VNum n => NilZero.string_of_int (Z.to_int n)
  | VNaN => "NaN"
  | VStr s => s
  | VError name msg =>
      if (name =? "")%string then msg
      else if (msg =? "")%string then name
      else (name ++ ": " ++ msg)%string
  end.

(** [strs.join(',')] on strings. *)
Fixpoint join (strs : list string) : string :=
  match strs with
  | [] => ""
  | s :: rest =>
      match rest with
      | [] => s
      | _ :: _ => (s ++ "," ++ join rest)%string
      end
  end.

(** [args.toString()], that is [args.join(',')]: [undefined] and [null]
    give the empty string, and an element that is an array is joined in
    the same way. *)
Fixpoint item_to_string (v : item) : string :=
  match v with
  | Atom VUndefined | Atom VNull => ""
  | Atom x => to_string x
  | Arr elems => join (map item_to_string elems)
  end.

Definition toString (args : list item) : string := join (map item_to_string args).

(** [s.split(',')]: never empty, the empty string gives one empty piece. *)
Fixpoint split_comma (s : string) : list string :=
  match s with
  | EmptyString => [""%string]
  | String c rest =>
      let parts := split_comma rest in
      if Ascii.eqb c ","
      then ""%string :: parts
      else match parts with
           | p :: ps => String c p :: ps
           | [] => [String c ""]
           end
  end.

Fixpoint has_comma (s : string) : bool :=
  match s with
  | EmptyString => false
  | String c rest => Ascii.eqb c "," || has_comma rest
  end.

(** [export const pull = (arr, ...args) => {
      let pulled = arr.filter(
        (v, i) => !args.toString().split(',').includes(v))
      arr.length = 0
      pulled.forEach(v => arr.push(v))
    }]
    The result is the contents of [arr] afterwards; the function itself
    returns [undefined]. *)
Definition pull (arr : list value) (args : list item) : list value :=
  filter (fun v => negb (includes (map VStr (split_comma (toString args))) v)) arr.

End Arrays.

(* ===================================================================== *)
(** * Part II: the properties                                             *)
(* ===================================================================== *)

(** ** compose, pipeFunctions, curry *)

Module SyncFacts.
Import Sync.
Local Open Scope js_scope.

Section Laws.
Context {World : Type}.

Lemma bind_ext {A B} (m1 m2 : M World A) (k1 k2 : A -> M World B) w :
  m1 w = m2 w ->
  (forall a w', k1 a w' = k2 a w') ->
  bind m1 k1 w = bind m2 k2 w.
Proof.
  intros Hm Hk. unfold bind. rewrite Hm.
  destruct (m2 w) as [[a | e] w']; [apply Hk | reflexivity].
Qed.

Lemma bind_assoc {A B C} (m : M World A) (k : A -> M World B) (h : B -> M World C) w :
  bind (bind m k) h w = bind m (fun a => bind (k a) h) w.
Proof.
  unfold bind. destruct (m w) as [[a | e] w']; reflexivity.
Qed.

(** Below a non-empty tail the head of a nesting is applied last, to the
    one value the tail produced. *)
Lemma nest_right_cons (f : func World) rest args w :
  rest <> [] ->
  nest_right (f :: rest) args w =
  bind (nest_right rest args) (fun v => fn_call f [v]) w.
Proof.
  destruct rest as [| g rest]; [congruence | reflexivity].
Qed.

Lemma nest_right_merge (f g : func World) rest args w :
  nest_right (compose_step f g :: rest) args w =
  nest_right (f :: g :: rest) args w.
Proof.
  destruct rest as [| h rest].
  - reflexivity.
  - rewrite (nest_right_cons (compose_step f g)) by discriminate.
    rewrite (nest_right_cons f) by discriminate.
    rewrite (bind_ext _ _ _ _ w (nest_right_cons g (h :: rest) args w ltac:(discriminate))
               (fun a w' => eq_refl)).
    rewrite bind_assoc. reflexivity.
Qed.

Lemma compose_fold rest : forall (f : func World) args w,
  fn_call (fold_left compose_step rest f) args w = nest_right (f :: rest) args w.
Proof.
  induction rest as [| g rest IH]; intros f args w.
  - reflexivity.
  - cbn [fold_left]. rewrite IH. apply nest_right_merge.
Qed.

Lemma pipe_fold rest : forall (f : func World) args w,
  fn_call (fold_left pipe_step rest f) args w = nest_right (rev (f :: rest)) args w.
Proof.
  induction rest as [| g rest IH] using rev_ind; intros f args w.
  - reflexivity.
  - rewrite fold_left_app. cbn [fold_left].
    replace (rev (f :: rest ++ [g])) with (g :: rev (f :: rest)).
    + rewrite nest_right_cons.
      * cbn [pipe_step arrow fn_call]. apply bind_ext; [apply IH | reflexivity].
      * cbn [rev]. intro H. apply app_eq_nil in H. destruct H; discriminate.
    + cbn [rev]. rewrite rev_app_distr. reflexivity.
Qed.

(** One more call on a partial application: enough arguments now. *)
Lemma call_curried_enough (fn : func World) arity acc more w :
  arity <= length (acc ++ more) ->
  call_curried (Bound fn arity acc) more w =
  bind (fn_call fn (acc ++ more)) (fun v => ret (Value v)) w.
Proof.
  intro H. cbn [call_curried]. unfold curry.
  apply Nat.leb_le in H. rewrite H. reflexivity.
Qed.

(** One more call on a partial application: still too few arguments. *)
Lemma call_curried_short (fn : func World) arity acc more w :
  length (acc ++ more) < arity ->
  call_curried (Bound fn arity acc) more w =
  (Normal (Bound fn arity (acc ++ more)), w).
Proof.
  intro H. cbn [call_curried]. unfold curry.
  apply Nat.leb_gt in H. rewrite H. reflexivity.
Qed.

Lemma call_groups_bound (fn : func World) arity groups : forall acc w,
  groups <> [] ->
  Forall (fun g => g <> []) groups ->
  length acc + length (concat groups) = arity ->
  call_groups (Bound fn arity acc) groups w =
  bind (fn_call fn (acc ++ concat groups)) (fun v => ret (Value v)) w.
Proof.
  induction groups as [| g rest IH]; intros acc w Hne Hall Hlen; [congruence |].
  pose proof (Forall_inv Hall) as Hg. pose proof (Forall_inv_tail Hall) as Hrest.
  cbn [concat] in *. rewrite length_app in Hlen.
  cbn [call_groups].
  destruct rest as [| g' rest'].
  - cbn [concat] in *. rewrite app_nil_r in *. cbn [length] in Hlen.
    unfold bind at 1. rewrite call_curried_enough by (rewrite length_app; lia).
    unfold bind, ret. destruct (fn_call fn (acc ++ g) w) as [[v | e] w']; reflexivity.
  - assert (Hpos : 0 < length (concat (g' :: rest'))).
    { pose proof (Forall_inv Hrest) as Hg'. cbn [concat]. rewrite length_app.
      destruct g'; [congruence | cbn; lia]. }
    unfold bind at 1. rewrite call_curried_short by (rewrite length_app; lia).
    rewrite IH; [| discriminate | assumption | rewrite length_app; lia].
    rewrite app_assoc. reflexivity.
Qed.

Lemma curry_then_groups (fn : func World) arity groups w :
  Forall (fun g => g <> []) groups ->
  length (concat groups) = arity ->
  bind (curry fn (Some arity) []) (fun c => call_groups c groups) w =
  bind (fn_call fn (concat groups)) (fun v => ret (Value v)) w.
Proof.
  intros Hall Hlen. destruct groups as [| g rest].
  - cbn [concat length] in Hlen. subst arity. cbn [concat].
    unfold curry. cbn [length Nat.leb]. rewrite bind_assoc.
    apply bind_ext; [reflexivity |]. intros v w'. reflexivity.
  - assert (Hpos : 0 < arity).
    { pose proof (Forall_inv Hall) as Hg. rewrite <- Hlen. cbn [concat].
      rewrite length_app. destruct g; [congruence | cbn; lia]. }
    unfold curry. cbn [length]. destruct arity as [| a]; [lia |].
    cbn [Nat.leb]. unfold bind at 1, ret at 1.
    apply (call_groups_bound fn (S a) (g :: rest) [] w);
      [discriminate | assumption | cbn [length]; lia].
Qed.

End Laws.

Lemma spy_logs_call {World} (fn : func World) args w calls :
  snd (snd (bind (fn_call (spy fn) args) (fun v => ret (Value (World := World * list (list value)) v)) (w, calls))) =
  calls ++ [args].
Proof.
  unfold bind, ret. cbn [spy fn_call fst snd].
  destruct (fn_call fn args w) as [[v | e] w']; reflexivity.
Qed.

(** The source's own example: [compose(add5, multiply)(5, 2)] and
    [pipeFunctions(multiply, add5)(5, 2)] are 15. *)
Example multiplyAndAdd5_compose :
  call_completion (compose [add5; multiply]) [VNum 5; VNum 2] tt = (Normal (VNum 15), tt).
Proof. reflexivity. Qed.

Example multiplyAndAdd5_pipe :
  call_completion (pipeFunctions [multiply; add5]) [VNum 5; VNum 2] tt = (Normal (VNum 15), tt).
Proof. reflexivity. Qed.

Example curry_add3_one_by_one :
  bind (curry add3 None [])
       (fun c => call_groups c [[VNum 1]; [VNum 2]; [VNum 3]]) tt
  = (Normal (Value (VNum 6)), tt).
Proof. reflexivity. Qed.

Example curry_add3_two_then_one :
  bind (curry add3 None [])
       (fun c => call_groups c [[VNum 1; VNum 2]; [VNum 3]]) tt
  = (Normal (Value (VNum 6)), tt).
Proof. reflexivity. Qed.

Example curry_add3_all_at_once :
  bind (curry add3 (Some 3) [])
       (fun c => call_groups c [[VNum 1; VNum 2; VNum 3]]) tt
  = (Normal (Value (VNum 6)), tt).
Proof. reflexivity. Qed.

(** C1. For a non-empty list of callables [f1 .. fn], [compose] returns a
    callable, and calling it on [args] is [f1(f2(...fn(...args)))]: the
    rightmost function receives [args], and every other function receives
    the one value produced by the function to its right (results, throws
    and effects on the world included). *)
Theorem compose_right_to_left {World} (fns : list (func World)) :
  fns <> [] ->
  exists c,
    compose fns = Normal c /\
    forall args w, fn_call c args w = nest_right fns args w.
Proof.
  destruct fns as [| f rest]; [congruence | intros _].
  exists (fold_left compose_step rest f). split.
  - reflexivity.
  - intros args w. apply compose_fold.
Qed.

Lemma compose_right_to_left_witness :
  [add5; multiply] <> [] /\
  exists c,
    compose [add5; multiply] = Normal c /\
    forall args w, fn_call c args w = nest_right [add5; multiply] args w.
Proof.
  split; [discriminate | apply (compose_right_to_left [add5; multiply]); discriminate].
Defined.

(** C2. For a non-empty list of callables [f1 .. fn], [pipeFunctions]
    returns a callable, and calling it on [args] is
    [fn(...(f2(f1(...args))))], the nesting of the reversed list: the
    leftmost function receives [args], and each later function receives
    the one value produced by the function to its left. *)
Theorem pipeFunctions_left_to_right {World} (fns : list (func World)) :
  fns <> [] ->
  exists c,
    pipeFunctions fns = Normal c /\
    forall args w, fn_call c args w = nest_right (rev fns) args w.
Proof.
  destruct fns as [| f rest]; [congruence | intros _].
  exists (fold_left pipe_step rest f). split.
  - reflexivity.
  - intros args w. apply pipe_fold.
Qed.

Lemma pipeFunctions_left_to_right_witness :
  [multiply; add5] <> [] /\
  exists c,
    pipeFunctions [multiply; add5] = Normal c /\
    forall args w, fn_call c args w = nest_right (rev [multiply; add5]) args w.
Proof.
  split; [discriminate | apply (pipeFunctions_left_to_right [multiply; add5]); discriminate].
Defined.

(** C3. For a callable [fn] of arity [k] (its [length], or the arity
    handed to [curry] for a variadic [fn]) and any split of [k] arguments
    into consecutive non-empty groups, applying what [curry(fn)] (or
    [curry(fn, k)]) returns to the groups in turn gives what
    [fn(a1, ..., ak)] gives; [fn] is called exactly once, with the whole
    argument list; and one application step calls [fn] on the accumulated
    arguments as soon as they reach the arity, and otherwise returns a new
    partial application holding them. *)
Theorem curry_any_grouping {World} (fn : func World) (k : nat)
    (arity : option nat) (groups : list (list value)) :
  Forall (fun g => g <> []) groups ->
  length (concat groups) = k ->
  (arity = None /\ fn_length fn = k) \/ arity = Some k ->
  (forall w,
      bind (curry fn arity []) (fun c => call_groups c groups) w =
      bind (fn_call fn (concat groups)) (fun v => ret (Value v)) w)
  /\ (forall w calls,
      snd (snd (bind (curry (spy fn) arity []) (fun c => call_groups c groups)
                     (w, calls))) = calls ++ [concat groups])
  /\ (forall a acc more w,
      a <= length (acc ++ more) ->
      call_curried (Bound fn a acc) more w =
      bind (fn_call fn (acc ++ more)) (fun v => ret (Value v)) w)
  /\ (forall a acc more w,
      length (acc ++ more) < a ->
      call_curried (Bound fn a acc) more w =
      (Normal (Bound fn a (acc ++ more)), w)).
Proof.
  intros Hall Hlen Harity.
  assert (Hrun : forall W' (f : func W') w,
             fn_length f = fn_length fn ->
             bind (curry f arity []) (fun c => call_groups c groups) w =
             bind (fn_call f (concat groups)) (fun v => ret (Value v)) w).
  { intros W' f w Hf. destruct Harity as [[-> Hk] | ->].
    - apply (curry_then_groups f (fn_length f) groups w Hall). congruence.
    - apply (curry_then_groups f k groups w Hall Hlen). }
  repeat split.
  - intro w. apply Hrun. reflexivity.
  - intros w calls. rewrite (Hrun _ (spy fn) (w, calls) eq_refl).
    apply spy_logs_call.
  - intros a acc more w. apply call_curried_enough.
  - intros a acc more w. apply call_curried_short.
Qed.

Lemma curry_any_grouping_witness :
  Forall (fun g => g <> []) [[VNum 1; VNum 2]; [VNum 3]] /\
  length (concat [[VNum 1; VNum 2]; [VNum 3]]) = 3 /\
  forall w,
    bind (curry add3 None []) (fun c => call_groups c [[VNum 1; VNum 2]; [VNum 3]]) w =
    bind (fn_call add3 [VNum 1; VNum 2; VNum 3]) (fun v => ret (Value v)) w.
Proof.
  assert (Hall : Forall (fun g : list value => g <> []) [[VNum 1; VNum 2]; [VNum 3]]).
  { repeat constructor; discriminate. }
  split; [exact Hall |]. split; [reflexivity |].
  exact (proj1 (curry_any_grouping add3 3 None [[VNum 1; VNum 2]; [VNum 3]]
                  Hall eq_refl (or_introl (conj eq_refl eq_refl)))).
Defined.

(** C8. With no callables at all, [compose()] and [pipeFunctions()] raise
    a TypeError (the [reduce] of an empty array without initial value), so
    evaluating [compose()(...args)] or [pipeFunctions()(...args)] fails for
    every [args] and leaves the world as it was: there is no identity
    fallback. *)
Theorem compose_empty_fails {World} :
  (exists e, compose (World := World) [] = Abrupt e /\ is_TypeError e = true)
  /\ (exists e, pipeFunctions (World := World) [] = Abrupt e /\ is_TypeError e = true)
  /\ (forall args (w : World),
        exists e, call_completion (compose []) args w = (Abrupt e, w)
                  /\ is_TypeError e = true)
  /\ (forall args (w : World),
        exists e, call_completion (pipeFunctions []) args w = (Abrupt e, w)
                  /\ is_TypeError e = true).
Proof.
  repeat split; try intros args w; eexists; split; reflexivity.
Qed.

(** C10. For a single callable [f], [compose(f)] and [pipeFunctions(f)]
    return [f] itself, not a wrapper around it: the same function object,
    with the same [length] and the same behaviour on every argument list. *)
Theorem compose_single_is_same {World} (f : func World) :
  compose [f] = Normal f /\ pipeFunctions [f] = Normal f
  /\ (forall args w, call_completion (compose [f]) args w = fn_call f args w)
  /\ (forall args w, call_completion (pipeFunctions [f]) args w = fn_call f args w).
Proof.
  repeat split.
Qed.

End SyncFacts.

(** ** promisify *)

Module PromisifyFacts.
Import Promisify.

Lemma verdict_settles cargs : verdict cargs <> Pending.
Proof. unfold verdict. destruct (truthy (arg 0 cargs)); discriminate. Qed.

Lemma first_settling_app l1 l2 :
  first_settling (l1 ++ l2) =
  match first_settling l1 with
  | Pending => first_settling l2
  | st => st
  end.
Proof.
  induction l1 as [| ev l1 IH]; [reflexivity |].
  destruct ev as [msg | cargs | e]; cbn [app first_settling].
  - exact IH.
  - pose proof (verdict_settles cargs). destruct (verdict cargs); congruence.
  - reflexivity.
Qed.

Section Consistency.
Context {World : Type}.
Implicit Type s : state World.

Lemma consistent_effect msg s : consistent s -> consistent (log (EvEffect msg) s).
Proof.
  unfold consistent, log. cbn [settled trace]. intros ->.
  rewrite first_settling_app. cbn [first_settling].
  destruct (first_settling (trace s)); reflexivity.
Qed.

Lemma consistent_set_world w s : consistent s -> consistent (set_world w s).
Proof. unfold consistent, set_world. cbn [settled trace]. auto. Qed.

Lemma consistent_add_timer delay cargs s :
  consistent s -> consistent (add_timer delay cargs s).
Proof. unfold consistent, add_timer. cbn [settled trace]. auto. Qed.

Lemma consistent_fire t rest s : consistent s -> consistent (fire t rest s).
Proof. unfold consistent, fire. cbn [settled trace]. auto. Qed.

Lemma consistent_callback cargs s :
  consistent s -> consistent (snd (callback resolve reject cargs s)).
Proof.
  unfold consistent, callback, resolve, reject, log, verdict. cbn [snd].
  intro H.
  destruct (truthy (arg 0 cargs)) eqn:Ht; cbn [settled trace];
    destruct (settled s) eqn:Hs; cbn [settled trace];
    rewrite first_settling_app; rewrite <- H;
    cbn [first_settling]; unfold verdict; rewrite ?Ht, ?Hs; reflexivity.
Qed.

Lemma consistent_thrown e s :
  consistent s -> consistent (reject e (log (EvThrown e) s)).
Proof.
  unfold consistent, reject, log. cbn [settled trace]. intro H.
  destruct (settled s) eqn:Hs; cbn [settled trace];
    rewrite first_settling_app; rewrite <- H; reflexivity.
Qed.

Lemma consistent_exec (p : prog World) : forall s,
  consistent s ->
  consistent (snd (exec world set_world (fun msg => log (EvEffect msg))
                        (callback resolve reject) add_timer p s)).
Proof.
  induction p as [v | e | msg k IH | k IH | w k IH | cargs k IH | delay cargs k IH];
    intros s Hs; cbn [exec].
  - exact Hs.
  - exact Hs.
  - apply IH, consistent_effect, Hs.
  - apply IH, Hs.
  - apply IH, consistent_set_world, Hs.
  - pose proof (consistent_callback cargs s Hs) as Hc.
    destruct (callback resolve reject cargs s) as [c s'] eqn:E. cbn [snd] in Hc.
    apply IH, Hc.
  - apply IH, consistent_add_timer, Hs.
Qed.

Lemma consistent_promisify fn args (w : World) : consistent (promisify fn args w).
Proof.
  unfold promisify, new_Promise.
  pose proof (consistent_exec (fn args) (mkState w Pending 0 [] []) eq_refl) as H.
  destruct (exec _ _ _ _ _ (fn args) _) as [[v | e] s]; cbn [snd] in H.
  - exact H.
  - apply consistent_thrown, H.
Qed.

Lemma consistent_run_timers fuel : forall s,
  consistent s -> consistent (run_timers fuel s).
Proof.
  induction fuel as [| fuel IH]; intros s Hs; cbn [run_timers]; [exact Hs |].
  destruct (take_due (timers s)) as [[t rest] |]; [| exact Hs].
  apply IH, consistent_callback, consistent_fire. exact Hs.
Qed.

End Consistency.

(** C4, as stated, fails: [0] is a non-null error value, yet a function
    that calls back with [(0, 42)] gets a fulfilled promise carrying 42. *)
Lemma promisify_nonnull_falsy_error_fulfils :
  non_null (VNum 0) /\
  trace (promisify (calls_back (VNum 0) (VNum 42)) [] tt) =
    [EvCallback [VNum 0; VNum 42]] /\
  settled (promisify (calls_back (VNum 0) (VNum 42)) [] tt) = Fulfilled (VNum 42) /\
  settled (promisify (calls_back (VNum 0) (VNum 42)) [] tt) <> Rejected (VNum 0).
Proof.
  repeat split; try discriminate; reflexivity.
Qed.

(** The spec's round trip: calling back with [(null, 42)] resolves to 42,
    calling back with [(err, undefined)] fails with [err]; and the
    source's [delay], whose timer calls back without arguments. *)
Example promisify_null_42 :
  settled (promisify (calls_back VNull (VNum 42)) [] tt) = Fulfilled (VNum 42).
Proof. reflexivity. Qed.

Example promisify_err :
  settled (promisify (calls_back (VError "Error" "boom") VUndefined) [] tt) =
  Rejected (VError "Error" "boom").
Proof. reflexivity. Qed.

Example promisify_delay :
  settled (promisify (fun args => Schedule 2000 [] (Return VUndefined)) [VNum 2000] tt)
    = Pending /\
  settled (run_timers 1
             (promisify (fun args => Schedule 2000 [] (Return VUndefined)) [VNum 2000] tt))
    = Fulfilled VUndefined.
Proof. split; reflexivity. Qed.

(** C4 (amended). Whatever [fn] does and however long the event loop has
    run, the promise returned by [promisify(fn)(...args)] is settled by
    the first call of the completion callback, provided the executor has
    not thrown before it: a truthy error makes it failed, carrying that
    error; a falsy error (null, absent or [undefined], but also [0], the
    empty string, [false], [NaN]) makes it fulfilled, carrying the second
    argument.  The second argument is a plain value, as every [value] is:
    a promise or another thenable in its place would be followed by the
    promise, not carried. *)
Theorem promisify_first_callback_settles {World}
    (fn : list value -> prog World) (args : list value) (w : World) (fuel : nat)
    (before after : list event) (cargs : list value) :
  trace (run_timers fuel (promisify fn args w)) = before ++ EvCallback cargs :: after ->
  first_settling before = Pending ->
  (truthy (arg 0 cargs) = true ->
     settled (run_timers fuel (promisify fn args w)) = Rejected (arg 0 cargs))
  /\ (truthy (arg 0 cargs) = false ->
     settled (run_timers fuel (promisify fn args w)) = Fulfilled (arg 1 cargs))
  /\ (arg 0 cargs = VNull \/ arg 0 cargs = VUndefined \/ cargs = [] ->
     settled (run_timers fuel (promisify fn args w)) = Fulfilled (arg 1 cargs)).
Proof.
  intros Htr Hbefore.
  pose proof (consistent_run_timers fuel _ (consistent_promisify fn args w)) as H.
  unfold consistent in H. rewrite Htr, first_settling_app, Hbefore in H.
  cbn [first_settling] in H. unfold verdict in H.
  repeat split.
  - intro Ht. rewrite Ht in H. exact H.
  - intro Ht. rewrite Ht in H. exact H.
  - intros [He | [He | He]].
    + rewrite He in H. exact H.
    + rewrite He in H. exact H.
    + subst cargs. exact H.
Qed.

Lemma promisify_first_callback_settles_witness :
  settled (run_timers 1
             (promisify (fun _ => Schedule 10 [VError "Error" "late"]
                                    (Invoke [VNum 0; VNum 42] (propagate Return))) [] tt)) =
  Fulfilled (VNum 42).
Proof.
  refine (proj1 (proj2
    (promisify_first_callback_settles
       (fun _ => Schedule 10 [VError "Error" "late"]
                   (Invoke [VNum 0; VNum 42] (propagate Return)))
       [] tt 1 [] [EvCallback [VError "Error" "late"]] [VNum 0; VNum 42] _ _)) _);
    reflexivity.
Defined.

End PromisifyFacts.

(** ** chainAsync *)

Module ChainFacts.
Import Chain.

(** *** Linked logs *)

Lemma linked_app n l1 l2 : linked n l1 -> linked n l2 -> linked n (l1 ++ l2).
Proof.
  induction 1; intro H2; cbn [app]; try constructor; auto.
Qed.

(** In a linked log a step starts right after the call of [next] that
    leads to it. *)
Lemma linked_start_preceded n tr :
  linked n tr ->
  forall before j after,
    tr = before ++ EvStart j :: after ->
    exists before' who, before = before' ++ [EvNext who] /\ succ who = j /\ j < n.
Proof.
  induction 1 as [| who rest Hlt Hl IH | who rest Hge Hl IH
                  | i msg rest Hl IH | e rest Hl IH];
    intros before j after E.
  - destruct before; discriminate.
  - destruct before as [| b0 before]; [discriminate |].
    injection E as E0 E. subst b0.
    destruct before as [| b1 before].
    + injection E as E _. exists [], who. subst j. repeat split. exact Hlt.
    + injection E as E1 E. subst b1.
      destruct (IH _ _ _ E) as [b' [w [Hb [Hs Hj]]]]. subst before.
      exists (EvNext who :: EvStart (succ who) :: b'), w. repeat split; assumption.
  - destruct before as [| b0 before]; [discriminate |].
    injection E as E0 E. subst b0.
    destruct before as [| b1 before]; [discriminate |].
    injection E as E1 E. subst b1.
    destruct (IH _ _ _ E) as [b' [w [Hb [Hs Hj]]]]. subst before.
    exists (EvNext who :: EvPastEnd :: b'), w. repeat split; assumption.
  - destruct before as [| b0 before]; [discriminate |].
    injection E as E0 E. subst b0.
    destruct (IH _ _ _ E) as [b' [w [Hb [Hs Hj]]]]. subst before.
    exists (EvEffect i msg :: b'), w. repeat split; assumption.
  - destruct before as [| b0 before]; [discriminate |].
    injection E as E0 E. subst b0.
    destruct (IH _ _ _ E) as [b' [w [Hb [Hs Hj]]]]. subst before.
    exists (EvUncaught e :: b'), w. repeat split; assumption.
Qed.

(** In a linked log a call of [next] is followed by the start of the next
    step, when there is one. *)
Lemma linked_next_followed n tr :
  linked n tr ->
  forall who, In (EvNext who) tr -> succ who < n -> In (EvStart (succ who)) tr.
Proof.
  induction 1 as [| who rest Hlt Hl IH | who rest Hge Hl IH
                  | i msg rest Hl IH | e rest Hl IH];
    intros w Hin Hw; cbn [In] in *.
  - contradiction.
  - destruct Hin as [E | [E | Hin]]; try discriminate.
    + injection E as E. subst w. right. left. reflexivity.
    + right. right. apply IH; assumption.
  - destruct Hin as [E | [E | Hin]]; try discriminate.
    + injection E as E. subst w. lia.
    + right. right. apply IH; assumption.
  - destruct Hin as [E | Hin]; try discriminate. right. apply IH; assumption.
  - destruct Hin as [E | Hin]; try discriminate. right. apply IH; assumption.
Qed.

(** An event that does not occur in a given, explicit log. *)
Ltac absent :=
  cbn; let H := fresh "H" in
  intro H; repeat (destruct H as [H | H]; try discriminate); exact H.

Lemma succ_step who i : succ who = S i -> who = ByStep i.
Proof. destruct who; cbn; [discriminate | intro H; f_equal; lia]. Qed.

Section Steps.
Context {World : Type}.
Variable fns : list (prog World).
Implicit Type s : state World.

Local Abbreviation run_step := (Chain.run_step fns).
Local Abbreviation in_order := (Chain.in_order fns).
Local Abbreviation extends := (Chain.extends fns).
Local Abbreviation last_called := (Chain.last_called fns).
Local Abbreviation outcome := (Chain.outcome fns).

Lemma next_S depth who s :
  next fns (S depth) who s =
  let i := curr s in
  let s1 := set_curr (S i) (log (EvNext who) s) in
  match nth_error fns i with
  | None => (Abrupt (TypeError "fns[(curr++)] is not a function"), log EvPastEnd s1)
  | Some step => run_step depth i step (log (EvStart i) s1)
  end.
Proof. reflexivity. Qed.

(** *** The stack bound *)

Lemma run_step_depth d1 d2 i
      (IH : forall who s,
          length fns - curr s < d1 -> length fns - curr s < d2 ->
          next fns d1 who s = next fns d2 who s /\
          curr s <= curr (snd (next fns d1 who s))) :
  forall p s,
    length fns - curr s < d1 -> length fns - curr s < d2 ->
    run_step d1 i p s = run_step d2 i p s /\
    curr s <= curr (snd (run_step d1 i p s)).
Proof.
  unfold run_step.
  induction p as [v | e | msg k IHk | k IHk | w k IHk | cargs k IHk | delay cargs k IHk];
    intros s H1 H2; cbn [exec].
  - split; [reflexivity | cbn; lia].
  - split; [reflexivity | cbn; lia].
  - apply (IHk (log (EvEffect i msg) s)); assumption.
  - apply (IHk (world s) s); assumption.
  - apply (IHk (set_world w s)); assumption.
  - destruct (IH (ByStep i) s H1 H2) as [Heq Hle]. rewrite <- Heq.
    destruct (next fns d1 (ByStep i) s) as [c s'] eqn:E. cbn [snd] in Hle.
    destruct (IHk c s') as [Heq' Hle']; [lia | lia |].
    split; [exact Heq' | lia].
  - apply (IHk (add_timer i delay cargs s)); assumption.
Qed.

Lemma next_depth d1 : forall d2 who s,
  length fns - curr s < d1 -> length fns - curr s < d2 ->
  next fns d1 who s = next fns d2 who s /\
  curr s <= curr (snd (next fns d1 who s)).
Proof.
  induction d1 as [| d1 IH]; intros d2 who s H1 H2; [lia |].
  destruct d2 as [| d2]; [lia |].
  rewrite !next_S. cbv zeta.
  destruct (nth_error fns (curr s)) as [step |] eqn:E.
  - assert (Hlt : curr s < length fns) by (apply nth_error_Some; congruence).
    destruct (run_step_depth d1 d2 (curr s) (fun who' s' => IH d2 who' s') step
                (log (EvStart (curr s)) (set_curr (S (curr s)) (log (EvNext who) s))))
      as [Heq Hle]; [cbn; lia | cbn; lia |].
    split; [exact Heq | cbn in Hle; lia].
  - split; [reflexivity | cbn; lia].
Qed.

(** With [stack] levels the stack never runs out: any deeper stack gives
    the same run, so the RangeError of the model is never raised. *)
Lemma next_depth_enough depth who s :
  stack fns <= depth ->
  next fns depth who s = next fns (stack fns) who s.
Proof.
  intro H. unfold stack in *.
  apply (next_depth depth (S (length fns)) who s); lia.
Qed.

(** *** Steps start in the order of the list, each at most once *)

Lemma starts_app l1 l2 : starts (l1 ++ l2) = starts l1 ++ starts l2.
Proof.
  induction l1 as [| ev l1 IH]; [reflexivity |].
  destruct ev; cbn [app starts]; rewrite IH; reflexivity.
Qed.

Lemma in_order_run_step d i
      (IH : forall who s, in_order s -> in_order (snd (next fns d who s))) :
  forall p s, in_order s -> in_order (snd (run_step d i p s)).
Proof.
  unfold run_step.
  induction p as [v | e | msg k IHk | k IHk | w k IHk | cargs k IHk | delay cargs k IHk];
    intros s Hs; cbn [exec].
  - exact Hs.
  - exact Hs.
  - apply IHk. unfold in_order, log in *. cbn [trace curr].
    rewrite starts_app, Hs. cbn [starts]. apply app_nil_r.
  - apply IHk. exact Hs.
  - apply IHk. exact Hs.
  - pose proof (IH (ByStep i) s Hs) as H.
    destruct (next fns d (ByStep i) s) as [c s']. apply IHk, H.
  - apply IHk. exact Hs.
Qed.

Lemma in_order_next d : forall who s,
  in_order s -> in_order (snd (next fns d who s)).
Proof.
  induction d as [| d IH]; intros who s Hs; [exact Hs |].
  rewrite next_S. cbv zeta.
  destruct (nth_error fns (curr s)) as [step |] eqn:E.
  - assert (Hlt : curr s < length fns) by (apply nth_error_Some; congruence).
    apply (in_order_run_step d (curr s) IH).
    unfold in_order, log, set_curr in *. cbn [trace curr].
    rewrite !starts_app, Hs. cbn [starts]. rewrite app_nil_r.
    replace (Nat.min (curr s) (length fns)) with (curr s) by lia.
    replace (Nat.min (S (curr s)) (length fns)) with (S (curr s)) by lia.
    rewrite seq_S. reflexivity.
  - assert (Hge : length fns <= curr s) by (apply nth_error_None; exact E).
    unfold in_order, log, set_curr in *. cbn [snd trace curr].
    rewrite !starts_app, Hs. cbn [starts]. rewrite !app_nil_r.
    f_equal. lia.
Qed.

Lemma in_order_run_timers fuel : forall s,
  in_order s -> in_order (run_timers fns fuel s).
Proof.
  induction fuel as [| fuel IH]; intros s Hs; cbn [run_timers]; [exact Hs |].
  destruct (take_due (timers s)) as [[t rest] |]; [| exact Hs].
  pose proof (in_order_next (stack fns) (ByStep (owner t))
                (fire t rest s) Hs) as H.
  destruct (next fns (stack fns) (ByStep (owner t)) _) as [[v | e] s2]; cbn [snd] in H.
  - apply IH, H.
  - apply IH. unfold in_order, log in *. cbn [trace curr].
    rewrite starts_app, H. cbn [starts]. apply app_nil_r.
Qed.

Lemma snd_chainAsync w :
  snd (chainAsync fns w) = snd (next fns (stack fns) ByChain (init w)).
Proof.
  unfold chainAsync.
  destruct (next fns (stack fns) ByChain (init w)) as [[v | e] s]; reflexivity.
Qed.

Lemma in_order_chainAsync w fuel : in_order (chainAsync_then fns w fuel).
Proof.
  unfold chainAsync_then. apply in_order_run_timers.
  rewrite snd_chainAsync. apply in_order_next. reflexivity.
Qed.

(** *** Steps that use [next] at most once *)

Lemma extends_refl s : extends s s.
Proof. exists []. split; [symmetry; apply app_nil_r | constructor]. Qed.

Lemma extends_trans s1 s2 s3 : extends s1 s2 -> extends s2 s3 -> extends s1 s3.
Proof.
  intros [e1 [H1 L1]] [e2 [H2 L2]]. exists (e1 ++ e2). split.
  - rewrite H2, H1. symmetry. apply app_assoc.
  - apply linked_app; assumption.
Qed.

Lemma run_step_silent d i p : forall s,
  silent p ->
  curr (snd (run_step d i p s)) = curr s /\
  timers (snd (run_step d i p s)) = timers s /\
  extends s (snd (run_step d i p s)).
Proof.
  unfold run_step.
  induction p as [v | e | msg k IHk | k IHk | w k IHk | cargs k IHk | delay cargs k IHk];
    intros s Hp; cbn [exec silent] in *; try contradiction.
  - repeat split. apply extends_refl.
  - repeat split. apply extends_refl.
  - destruct (IHk (log (EvEffect i msg) s) Hp) as [Hc [Ht He]].
    repeat split; [exact Hc | exact Ht |].
    apply (extends_trans s (log (EvEffect i msg) s)); [| exact He].
    exists [EvEffect i msg]. split; [reflexivity | repeat constructor].
  - exact (IHk (world s) s (Hp (world s))).
  - exact (IHk (set_world w s) Hp).
Qed.

Lemma run_step_once d i
      (IH : forall who s,
          curr s = succ who -> timers s = [] ->
          one_agent (snd (next fns d who s)) /\ extends s (snd (next fns d who s))) :
  forall p s,
    at_most_once p -> curr s = S i -> timers s = [] ->
    one_agent (snd (run_step d i p s)) /\ extends s (snd (run_step d i p s)).
Proof.
  induction p as [v | e | msg k IHk | k IHk | w k IHk | cargs k IHk | delay cargs k IHk];
    intros s Hp Hc Ht.
  - split; [left; exact Ht | apply extends_refl].
  - split; [left; exact Ht | apply extends_refl].
  - destruct (IHk (log (EvEffect i msg) s) Hp Hc Ht) as [Ha He].
    split; [exact Ha |].
    apply (extends_trans s (log (EvEffect i msg) s)); [| exact He].
    exists [EvEffect i msg]. split; [reflexivity | repeat constructor].
  - exact (IHk (world s) s (Hp (world s)) Hc Ht).
  - exact (IHk (set_world w s) Hp Hc Ht).
  - destruct (IH (ByStep i) s Hc Ht) as [Ha He].
    change (run_step d i (Invoke cargs k) s)
      with (let '(c, s') := next fns d (ByStep i) s in run_step d i (k c) s').
    destruct (next fns d (ByStep i) s) as [c s']. cbn [snd] in Ha, He.
    destruct (run_step_silent d i (k c) s' (Hp c)) as [Hc' [Ht' He']].
    split; [| apply (extends_trans s s'); assumption].
    unfold one_agent in *. rewrite Hc', Ht'. exact Ha.
  - change (run_step d i (Schedule delay cargs k) s)
      with (run_step d i k (add_timer i delay cargs s)).
    destruct (run_step_silent d i k (add_timer i delay cargs s) Hp) as [Hc' [Ht' He']].
    split.
    + right. exists (mkTimer (clock s + delay) i cargs).
      rewrite Hc', Ht'. cbn [add_timer timers curr owner]. rewrite Ht. split; [reflexivity | auto].
    + apply (extends_trans s (add_timer i delay cargs s)); [| exact He'].
      exists []. split; [symmetry; apply app_nil_r | constructor].
Qed.

Lemma next_once (Hfns : Forall at_most_once fns) d : forall who s,
  curr s = succ who -> timers s = [] ->
  one_agent (snd (next fns d who s)) /\ extends s (snd (next fns d who s)).
Proof.
  induction d as [| d IH]; intros who s Hc Ht.
  - split; [left; exact Ht | apply extends_refl].
  - rewrite next_S. cbv zeta.
    destruct (nth_error fns (curr s)) as [step |] eqn:E.
    + assert (Hlt : curr s < length fns) by (apply nth_error_Some; congruence).
      assert (Hstep : at_most_once step).
      { apply (proj1 (Forall_forall _ _) Hfns). eapply nth_error_In, E. }
      destruct (run_step_once d (curr s) IH step
                  (log (EvStart (curr s)) (set_curr (S (curr s)) (log (EvNext who) s)))
                  Hstep eq_refl Ht) as [Ha He].
      split; [exact Ha |].
      destruct He as [evs [Htr Hl]].
      exists (EvNext who :: EvStart (curr s) :: evs). split.
      * rewrite Htr. cbn [log set_curr trace]. rewrite <- !app_assoc. reflexivity.
      * rewrite Hc in *. constructor; assumption.
    + assert (Hge : length fns <= curr s) by (apply nth_error_None; exact E).
      split; [left; exact Ht |].
      exists [EvNext who; EvPastEnd]. split.
      * cbn [snd log set_curr trace]. rewrite <- app_assoc. reflexivity.
      * rewrite Hc in *. repeat constructor. exact Hge.
Qed.

Lemma run_timers_once (Hfns : Forall at_most_once fns) fuel : forall s,
  one_agent s -> linked (length fns) (trace s) ->
  one_agent (run_timers fns fuel s) /\ linked (length fns) (trace (run_timers fns fuel s)).
Proof.
  induction fuel as [| fuel IH]; intros s Ha Hl; cbn [run_timers]; [split; assumption |].
  destruct Ha as [Ht | [t [Ht Ho]]]; rewrite Ht; cbn [take_due].
  - split; [left; exact Ht | exact Hl].
  - destruct (next_once Hfns (stack fns) (ByStep (owner t))
                (fire t [] s)
                (eq_sym Ho) eq_refl) as [Ha' [evs [Htr Hl']]].
    destruct (next fns (stack fns) (ByStep (owner t)) _) as [[v | e] s2];
      cbn [snd trace] in *.
    + apply IH; [exact Ha' |]. rewrite Htr. apply linked_app; assumption.
    + apply IH; [exact Ha' |]. cbn [log trace]. rewrite Htr.
      repeat apply linked_app; try assumption. repeat constructor.
Qed.

Lemma linked_chainAsync (Hfns : Forall at_most_once fns) w fuel :
  linked (length fns) (trace (chainAsync_then fns w fuel)).
Proof.
  unfold chainAsync_then. rewrite snd_chainAsync.
  destruct (next_once Hfns (stack fns) ByChain (init w) eq_refl eq_refl)
    as [Ha [evs [Htr Hl]]].
  apply run_timers_once; [exact Hfns | exact Ha |].
  rewrite Htr. exact Hl.
Qed.

(** *** Polite steps: the chain run synchronously *)

Lemma run_step_plain d i p : forall s,
  plain p ->
  exists v s' evs,
    run_step d i p s = (Normal v, s') /\
    trace s' = trace s ++ evs /\
    (forall who, ~ In (EvNext who) evs).
Proof.
  unfold run_step.
  induction p as [v | e | msg k IHk | k IHk | w k IHk | cargs k IHk | delay cargs k IHk];
    intros s Hp; cbn [exec plain] in *; try contradiction.
  - exists v, s, []. repeat split; [symmetry; apply app_nil_r | intros who []].
  - destruct (IHk (log (EvEffect i msg) s) Hp) as [v [s' [evs [Hr [Htr Hno]]]]].
    exists v, s', (EvEffect i msg :: evs). repeat split.
    + exact Hr.
    + rewrite Htr. cbn [log trace]. rewrite <- app_assoc. reflexivity.
    + intros who [E | Hin]; [discriminate | exact (Hno who Hin)].
  - exact (IHk (world s) s (Hp (world s))).
  - exact (IHk (set_world w s) Hp).
Qed.

Lemma run_step_polite d i
      (IH : forall who s,
          length fns - curr s < d ->
          exists evs,
            trace (snd (next fns d who s)) = trace s ++ EvNext who :: evs /\
            (length fns <= curr s -> raised (fst (next fns d who s))) /\
            (curr s < length fns -> outcome (fst (next fns d who s)) evs)) :
  forall p s,
    polite p -> curr s = S i -> i < length fns -> length fns - S i < d ->
    exists evs,
      trace (snd (run_step d i p s)) = trace s ++ evs /\
      outcome (fst (run_step d i p s)) evs.
Proof.
  induction p as [v | e | msg k IHk | k IHk | w k IHk | cargs k IHk | delay cargs k IHk];
    intros s Hp Hc Hi Hd; cbn [polite] in Hp; try contradiction.
  - exists []. split; [symmetry; apply app_nil_r |].
    right. split; [exists v; reflexivity | intros []].
  - destruct (IHk (log (EvEffect i msg) s) Hp Hc Hi Hd) as [evs [Htr Ho]].
    exists (EvEffect i msg :: evs). split.
    + change (run_step d i (Effect msg k) s) with (run_step d i k (log (EvEffect i msg) s)).
      rewrite Htr. cbn [log trace]. rewrite <- app_assoc. reflexivity.
    + change (run_step d i (Effect msg k) s) with (run_step d i k (log (EvEffect i msg) s)).
      destruct Ho as [[Hr Hl] | [Hv Hl]]; [left | right]; split; try assumption.
      * right. exact Hl.
      * intros [E | Hin]; [discriminate | exact (Hl Hin)].
  - exact (IHk (world s) s (Hp (world s)) Hc Hi Hd).
  - exact (IHk (set_world w s) Hp Hc Hi Hd).
  - destruct Hp as [Hplain Hprop].
    change (run_step d i (Invoke cargs k) s)
      with (let '(c, s') := next fns d (ByStep i) s in run_step d i (k c) s').
    destruct (IH (ByStep i) s ltac:(lia)) as [evs [Htr [Hpast Hin]]].
    destruct (next fns d (ByStep i) s) as [c s'] eqn:E. cbn [fst snd] in *.
    assert (Hraise : raised c -> last_called (EvNext (ByStep i) :: evs) ->
                     exists evs',
                       trace (snd (run_step d i (k c) s')) = trace s ++ evs' /\
                       outcome (fst (run_step d i (k c) s')) evs').
    { intros [e [-> He]] Hl. rewrite Hprop. cbn.
      exists (EvNext (ByStep i) :: evs). split; [exact Htr |].
      left. split; [exists e; split; [reflexivity | exact He] | exact Hl]. }
    destruct (Nat.le_gt_cases (length fns) (S i)) as [Hlast | Hmore].
    + apply Hraise; [apply Hpast; lia |].
      left. do 2 f_equal. lia.
    + destruct (Hin ltac:(lia)) as [[Hr Hl] | [[v ->] Hl]].
      * apply Hraise; [exact Hr | right; exact Hl].
      * destruct (run_step_plain d i (k (Normal v)) s' (Hplain v))
          as [v' [s'' [evs' [Hr [Htr' Hno]]]]].
        rewrite Hr. cbn [fst snd].
        exists (EvNext (ByStep i) :: evs ++ evs'). split.
        -- rewrite Htr', Htr. rewrite <- app_assoc. reflexivity.
        -- right. split; [exists v'; reflexivity |].
           intros [E0 | Hin']; [injection E0 as E0; lia |].
           apply in_app_or in Hin'. destruct Hin' as [Hin' | Hin'];
             [exact (Hl Hin') | exact (Hno _ Hin')].
  - change (run_step d i (Schedule delay cargs k) s)
      with (run_step d i k (add_timer i delay cargs s)).
    destruct (run_step_plain d i k (add_timer i delay cargs s) Hp)
      as [v [s' [evs [Hr [Htr Hno]]]]].
    rewrite Hr. exists evs. split; [exact Htr |].
    right. split; [exists v; reflexivity | intro H; exact (Hno _ H)].
Qed.

Lemma next_polite (Hfns : Forall polite fns) d : forall who s,
  length fns - curr s < d ->
  exists evs,
    trace (snd (next fns d who s)) = trace s ++ EvNext who :: evs /\
    (length fns <= curr s -> raised (fst (next fns d who s))) /\
    (curr s < length fns -> outcome (fst (next fns d who s)) evs).
Proof.
  induction d as [| d IH]; intros who s Hd; [lia |].
  rewrite next_S. cbv zeta.
  destruct (nth_error fns (curr s)) as [step |] eqn:E.
  - assert (Hlt : curr s < length fns) by (apply nth_error_Some; congruence).
    assert (Hstep : polite step).
    { apply (proj1 (Forall_forall _ _) Hfns). eapply nth_error_In, E. }
    destruct (run_step_polite d (curr s) IH step
                (log (EvStart (curr s)) (set_curr (S (curr s)) (log (EvNext who) s)))
                Hstep eq_refl Hlt ltac:(lia)) as [evs [Htr Ho]].
    exists (EvStart (curr s) :: evs). repeat split.
    + rewrite Htr. cbn [log set_curr trace]. rewrite <- !app_assoc. reflexivity.
    + lia.
    + intros _. destruct Ho as [[Hr Hl] | [Hv Hl]]; [left | right]; split; try assumption.
      * right. exact Hl.
      * intros [E' | Hin]; [discriminate | exact (Hl Hin)].
  - assert (Hge : length fns <= curr s) by (apply nth_error_None; exact E).
    exists [EvPastEnd]. repeat split.
    + cbn [snd log set_curr trace]. rewrite <- app_assoc. reflexivity.
    + intros _. eexists. split; reflexivity.
    + lia.
Qed.

End Steps.

(** The example of the source's documentation runs its three steps in
    order, the second and third from timers. *)
Example doc_example_trace :
  fst (chainAsync doc_example tt) = Normal VUndefined /\
  trace (chainAsync_then doc_example tt 5) =
  [ EvNext ByChain; EvStart 0; EvEffect 0 (VStr "0 seconds");
    EvNext (ByStep 0); EvStart 1; EvEffect 1 (VStr "1 second");
    EvNext (ByStep 1); EvStart 2; EvEffect 2 (VStr "2 seconds") ].
Proof. split; reflexivity. Qed.

(** A last step that calls [next] from a timer: [chainAsync] returns
    normally and the TypeError surfaces later, uncaught, in the event
    loop. *)
Example last_step_calls_later :
  fst (chainAsync [later 0] tt) = Normal VUndefined /\
  trace (chainAsync_then [later 0] tt 1) =
  [ EvNext ByChain; EvStart 0; EvNext (ByStep 0); EvPastEnd;
    EvUncaught (TypeError "fns[(curr++)] is not a function") ].
Proof. split; reflexivity. Qed.

(** A last step that calls [next] inside [try]/[catch]: no error leaves
    [chainAsync]. *)
Example last_step_catches :
  fst (chainAsync [call_next_caught] tt) = Normal VUndefined /\
  trace (snd (chainAsync [call_next_caught] tt)) =
  [ EvNext ByChain; EvStart 0; EvNext (ByStep 0); EvPastEnd ].
Proof. split; reflexivity. Qed.

(** A step that throws an error of its own: the error leaves
    [chainAsync] although no call went past the end. *)
Example step_throws :
  chainAsync [Throw (VError "Error" "boom")] tt =
  (Abrupt (VError "Error" "boom"),
   mkState tt 1 0 [] [EvNext ByChain; EvStart 0]).
Proof. reflexivity. Qed.

(** Steps that share a flag: whether the second goes on depends on what
    the first left in the world. *)
Example flag_steps :
  starts (trace (snd (chainAsync [set_flag; if_flag; Return VUndefined] false))) = [0; 1; 2] /\
  starts (trace (snd (chainAsync [Invoke [] (propagate Return); if_flag; Return VUndefined]
                                 false))) = [0; 1].
Proof. split; reflexivity. Qed.

Lemma call_next_once : at_most_once call_next.
Proof. intros [v | e]; exact I. Qed.

Lemma call_next_polite : polite call_next.
Proof. split; [intro v; exact I | intro e; reflexivity]. Qed.

(** Three steps that call [next] at once: the logs are linked, and the
    last call runs past the end. *)
Example three_steps_linked :
  linked 3 (trace (chainAsync_then [call_next; call_next; call_next] tt 0)) /\
  exists e, fst (chainAsync [call_next; call_next; call_next] tt) = Abrupt e
            /\ is_TypeError e = true.
Proof.
  split.
  - apply (linked_chainAsync [call_next; call_next; call_next]).
    repeat constructor; exact call_next_once.
  - eexists. split; reflexivity.
Qed.

(** C7, as stated, fails: when step 0 calls [next] twice, step 2 is
    started although step 1 never calls the continuation it was given. *)
Lemma chainAsync_second_call_starts_step_2 :
  [call_next_twice; stop; stop] <> [] /\
  trace (snd (chainAsync [call_next_twice; stop; stop] tt)) =
    [ EvNext ByChain; EvStart 0; EvNext (ByStep 0); EvStart 1;
      EvNext (ByStep 0); EvStart 2 ] /\
  In (EvStart 2) (trace (snd (chainAsync [call_next_twice; stop; stop] tt))) /\
  ~ In (EvNext (ByStep 1)) (trace (snd (chainAsync [call_next_twice; stop; stop] tt))).
Proof.
  split; [discriminate |]. split; [reflexivity |]. split.
  - cbn. tauto.
  - absent.
Qed.

(** C7 (amended). When every step uses the continuation at most once (one
    synchronous call or one deferred call), then at any point of the run,
    event loop included: step [i+1] has started if and only if step [i]
    has called the continuation (and there is a step [i+1]); the start of
    step [i+1] comes right after that call, never before it; steps start
    in the order of the list, each at most once; and three steps that
    each call their continuation synchronously run in order, once each. *)
Theorem chainAsync_step_follows_next {World} (fns : list (prog World)) (w : World)
    (fuel i : nat) :
  Forall at_most_once fns ->
  (In (EvStart (S i)) (trace (chainAsync_then fns w fuel)) <->
   In (EvNext (ByStep i)) (trace (chainAsync_then fns w fuel)) /\ S i < length fns)
  /\ (forall before after,
        trace (chainAsync_then fns w fuel) = before ++ EvStart (S i) :: after ->
        exists before', before = before' ++ [EvNext (ByStep i)])
  /\ (exists k, k <= length fns /\
                starts (trace (chainAsync_then fns w fuel)) = seq 0 k)
  /\ trace (snd (chainAsync [call_next; call_next; call_next] tt)) =
       [ EvNext ByChain; EvStart 0; EvNext (ByStep 0); EvStart 1;
         EvNext (ByStep 1); EvStart 2; EvNext (ByStep 2); EvPastEnd ].
Proof.
  intro Hfns.
  pose proof (linked_chainAsync fns Hfns w fuel) as Hl.
  assert (Hpre : forall before after,
             trace (chainAsync_then fns w fuel) = before ++ EvStart (S i) :: after ->
             exists before', before = before' ++ [EvNext (ByStep i)] /\ S i < length fns).
  { intros before after E.
    destruct (linked_start_preceded _ _ Hl _ _ _ E) as [b' [who [Hb [Hs Hlt]]]].
    apply succ_step in Hs. subst who. exists b'. split; assumption. }
  repeat split.
  - apply in_split in H. destruct H as [before [after E]].
    destruct (Hpre _ _ E) as [b' [Hb _]].
    rewrite E, Hb. apply in_or_app. left. apply in_or_app. right. left. reflexivity.
  - apply in_split in H. destruct H as [before [after E]].
    destruct (Hpre _ _ E) as [b' [_ Hlt]]. exact Hlt.
  - intros [Hin Hlt]. exact (linked_next_followed _ _ Hl (ByStep i) Hin Hlt).
  - intros before after E. destruct (Hpre _ _ E) as [b' [Hb _]]. exists b'. exact Hb.
  - exists (Nat.min (curr (chainAsync_then fns w fuel)) (length fns)).
    split; [lia | apply in_order_chainAsync].
Qed.

Lemma chainAsync_step_follows_next_witness :
  Forall at_most_once doc_example /\
  (In (EvStart 2) (trace (chainAsync_then doc_example tt 5)) <->
   In (EvNext (ByStep 1)) (trace (chainAsync_then doc_example tt 5))
   /\ 2 < length doc_example).
Proof.
  assert (H : Forall at_most_once doc_example) by (repeat constructor).
  split; [exact H |].
  exact (proj1 (chainAsync_step_follows_next doc_example tt 5 1 H)).
Defined.

(** C9, as stated, fails: when step 0 calls [next] twice, [chainAsync]
    raises the TypeError although the list is not empty and its final step
    never calls the continuation. *)
Lemma chainAsync_raises_without_last_step_calling :
  [call_next_twice; stop] <> [] /\
  ~ In (EvNext (ByStep (length [call_next_twice; stop] - 1)))
       (trace (snd (chainAsync [call_next_twice; stop] tt))) /\
  exists e, fst (chainAsync [call_next_twice; stop] tt) = Abrupt e
            /\ is_TypeError e = true.
Proof.
  split; [discriminate |]. split.
  - absent.
  - eexists. split; reflexivity.
Qed.

(** C9 (amended). When every step uses its continuation at most once
    (one synchronous call, or one call deferred to a timer), lets a throw
    of the continuation propagate and throws nothing of its own, the call
    [chainAsync(fns)] raises a TypeError (the call past the end of the
    list) if and only if the list is empty or its final step calls the
    continuation within that call; it raises nothing else; and a non-empty
    chain whose final step does not call the continuation within the call
    returns normally. *)
Theorem chainAsync_raises_iff_last_step_calls {World} (fns : list (prog World))
    (w : World) :
  Forall polite fns ->
  (raised (fst (chainAsync fns w)) <->
   fns = [] \/ In (EvNext (ByStep (length fns - 1))) (trace (snd (chainAsync fns w))))
  /\ (forall e, fst (chainAsync fns w) = Abrupt e -> is_TypeError e = true)
  /\ (fns <> [] ->
      ~ In (EvNext (ByStep (length fns - 1))) (trace (snd (chainAsync fns w))) ->
      fst (chainAsync fns w) = Normal VUndefined).
Proof.
  intro Hfns.
  destruct (next_polite fns Hfns (stack fns) ByChain (init w))
    as [evs [Htr [Hpast Hin]]]; [unfold stack; cbn; lia |].
  unfold chainAsync.
  destruct (next fns (stack fns) ByChain (init w)) as [c s] eqn:E.
  cbn [fst snd trace curr init app] in *.
  assert (Hcases : (raised c /\ (fns = [] \/ In (EvNext (ByStep (length fns - 1))) (trace s)))
                   \/ ((exists v, c = Normal v) /\ fns <> [] /\
                       ~ In (EvNext (ByStep (length fns - 1))) (trace s))).
  { destruct fns as [| f rest] eqn:Ef.
    - left. split; [apply Hpast; cbn; lia | left; reflexivity].
    - rewrite <- Ef in *.
      assert (Hpos : 0 < length fns) by (rewrite Ef; cbn; lia).
      destruct (Hin Hpos) as [[Hr Hl] | [Hv Hl]].
      + left. split; [exact Hr |]. right. rewrite Htr. right. exact Hl.
      + right. split; [exact Hv |]. split; [rewrite Ef; discriminate |].
        rewrite Htr. intros [E0 | Hl']; [discriminate | exact (Hl Hl')]. }
  destruct Hcases as [[[e [-> He]] Hor] | [[v ->] [Hne Hno]]]; cbn [fst snd].
  - repeat split.
    + intros _. exact Hor.
    + intros _. exists e. split; [reflexivity | exact He].
    + intros e' E'. injection E' as <-. exact He.
    + intros Hne Hno. destruct Hor as [Hor | Hor]; [congruence | contradiction].
  - repeat split.
    + intros [e [E' _]]. discriminate.
    + intros [Hor | Hor]; [congruence | contradiction].
    + intros e' E'. discriminate.
Qed.

Lemma chainAsync_raises_iff_last_step_calls_witness :
  Forall polite [call_next; later 1000] /\
  [call_next; later 1000] <> [] /\
  fst (chainAsync [call_next; later 1000] tt) = Normal VUndefined.
Proof.
  assert (H : Forall polite [call_next; later 1000]).
  { constructor; [exact call_next_polite | constructor; [exact I | constructor]]. }
  split; [exact H |]. split; [discriminate |].
  refine (proj2 (proj2 (chainAsync_raises_iff_last_step_calls
                          [call_next; later 1000] tt H)) _ _).
  - discriminate.
  - absent.
Defined.

End ChainFacts.

(** ** runPromisesInSeries *)

Module SeriesFacts.
Import Series.

(** The [reduce] of the source unrolls into the loop. *)
Lemma reduce_then {World} (ps : list (pfn World)) : forall p w,
  reduce (fun p next => then_ p next) ps p w =
  match p w with
  | (Fulfilled v, w1) => in_series ps v w1
  | (Rejected e, w1) => (Rejected e, w1)
  | (Pending, w1) => (Pending, w1)
  end.
Proof.
  unfold reduce.
  induction ps as [| f rest IH]; intros p w; cbn [fold_left in_series].
  - unfold Promise_resolve. destruct (p w) as [[| v | e] w1]; reflexivity.
  - rewrite IH. unfold then_.
    destruct (p w) as [[| v | e] w1]; try reflexivity.
    destruct (f v w1) as [[q | e] w2]; [| reflexivity].
    destruct (q w2) as [[| v' | e] w3]; reflexivity.
Qed.

Lemma runPromisesInSeries_in_series {World} (ps : list (pfn World)) w :
  runPromisesInSeries ps w = in_series ps VUndefined w.
Proof. unfold runPromisesInSeries. rewrite reduce_then. reflexivity. Qed.

(** Spies change neither the outcome nor the world, and the log they keep
    is one of the series logs. *)
Lemma in_series_spied {World} (fs : list (pfn World)) : forall i v w tr,
  exists evs,
    in_series (spies i fs) v (w, tr) =
      (fst (in_series fs v w), (snd (in_series fs v w), tr ++ evs)) /\
    series_log i (length fs) v evs (fst (in_series fs v w)).
Proof.
  induction fs as [| f rest IH]; intros i v w tr.
  - exists []. split; [cbn; rewrite app_nil_r; reflexivity | constructor].
  - cbn [spies in_series length]. unfold spy at 1. cbn [fst snd].
    destruct (f v w) as [[q | e] w1].
    + cbn [fst snd]. destruct (q w1) as [[| v' | e] w2]; cbn [settle_event fst snd].
      * exists [EvCall i v]. split; [rewrite app_nil_r; reflexivity | constructor].
      * destruct (IH (S i) v' w2 ((tr ++ [EvCall i v]) ++ [EvSettled i (Fulfilled v')]))
          as [evs [Hrun Hlog]].
        exists (EvCall i v :: EvSettled i (Fulfilled v') :: evs). split.
        -- rewrite Hrun. rewrite <- !app_assoc. reflexivity.
        -- constructor. exact Hlog.
      * exists [EvCall i v; EvSettled i (Rejected e)]. split.
        -- rewrite <- app_assoc. reflexivity.
        -- constructor.
    + exists [EvCall i v; EvThrew i e]. split.
      * cbn [fst snd]. rewrite <- app_assoc. reflexivity.
      * constructor.
Qed.

Lemma runPromisesInSeries_spied {World} (fs : list (pfn World)) w :
  exists evs,
    runPromisesInSeries (spies 0 fs) (w, []) =
      (fst (runPromisesInSeries fs w), (snd (runPromisesInSeries fs w), evs)) /\
    series_log 0 (length fs) VUndefined evs (fst (runPromisesInSeries fs w)).
Proof.
  rewrite !runPromisesInSeries_in_series.
  destruct (in_series_spied fs 0 VUndefined w []) as [evs [Hrun Hlog]].
  exists evs. split; [exact Hrun | exact Hlog].
Qed.

(** *** What every series log satisfies *)

Lemma series_log_index i n v evs s :
  series_log i n v evs s -> forall ev, In ev evs -> i <= index ev.
Proof.
  induction 1 as [i v | i n v v' evs s Hl IH | i n v e | i n v e | i n v];
    intros ev Hin; cbn [In] in Hin.
  - contradiction.
  - destruct Hin as [<- | [<- | Hin]]; cbn [index]; try lia.
    specialize (IH ev Hin). lia.
  - destruct Hin as [<- | [<- | []]]; cbn [index]; lia.
  - destruct Hin as [<- | [<- | []]]; cbn [index]; lia.
  - destruct Hin as [<- | []]; cbn [index]; lia.
Qed.

(** The functions are called in the order of the list, without gaps. *)
Lemma series_log_calls i n v evs s :
  series_log i n v evs s -> exists k, k <= n /\ calls evs = seq i k.
Proof.
  induction 1 as [i v | i n v v' evs s Hl IH | i n v e | i n v e | i n v].
  - exists 0. split; [lia | reflexivity].
  - destruct IH as [k [Hk Hc]]. exists (S k). split; [lia |].
    cbn [calls seq]. rewrite Hc. reflexivity.
  - exists 1. split; [lia | reflexivity].
  - exists 1. split; [lia | reflexivity].
  - exists 1. split; [lia | reflexivity].
Qed.

(** A call comes first with the initial value, or right after the
    fulfilment of the function before, with the value of that fulfilment. *)
Lemma series_log_call_preceded i n v evs s :
  series_log i n v evs s ->
  forall before j v' after,
    evs = before ++ EvCall j v' :: after ->
    (before = [] /\ j = i /\ v' = v) \/
    (exists before' j', j = S j' /\ before = before' ++ [EvSettled j' (Fulfilled v')]).
Proof.
  induction 1 as [i v | i n v v'' evs s Hl IH | i n v e | i n v e | i n v];
    intros before j v' after E.
  - destruct before; discriminate.
  - destruct before as [| b0 before].
    + injection E as E1 E2 _. left. repeat split; congruence.
    + injection E as E0 E. subst b0.
      destruct before as [| b1 before]; [discriminate |].
      injection E as E1 E. subst b1.
      right. destruct (IH _ _ _ _ E) as [[Hb [Hj Hv]] | [b' [j' [Hj Hb]]]].
      * subst. exists [EvCall i v], i. split; reflexivity.
      * subst. exists (EvCall i v :: EvSettled i (Fulfilled v'') :: b'), j'.
        split; reflexivity.
  - destruct before as [| b0 before].
    + injection E as E1 E2 _. left. repeat split; congruence.
    + injection E as E0 E. destruct before as [| b1 before]; [discriminate |].
      injection E as E1 E. destruct before; discriminate.
  - destruct before as [| b0 before].
    + injection E as E1 E2 _. left. repeat split; congruence.
    + injection E as E0 E. destruct before as [| b1 before]; [discriminate |].
      injection E as E1 E. destruct before; discriminate.
  - destruct before as [| b0 before].
    + injection E as E1 E2 _. left. repeat split; congruence.
    + injection E as E0 E. destruct before; discriminate.
Qed.

(** The series ends as the promise of the last function does. *)
Lemma series_log_last i n v evs s :
  series_log i n v evs s ->
  forall s', In (EvSettled (i + n - 1) s') evs -> s = s'.
Proof.
  induction 1 as [i v | i n v v' evs s Hl IH | i n v e | i n v e | i n v];
    intros s' Hin; cbn [In] in Hin.
  - contradiction.
  - destruct Hin as [E | [E | Hin]]; [discriminate | |].
    + injection E as Ei Es. assert (n = 0) by lia. subst n.
      inversion Hl; subst. congruence.
    + apply IH. replace (S i + n - 1) with (i + S n - 1) by lia. exact Hin.
  - destruct Hin as [E | [E | []]]; [discriminate |]. congruence.
  - destruct Hin as [E | [E | []]]; discriminate.
  - destruct Hin as [E | []]; discriminate.
Qed.

(** Once a function's promise is rejected, or a function throws, the series
    ends rejected with that error and no later function is called. *)
Lemma series_log_fail_fast i n v evs s :
  series_log i n v evs s ->
  forall j e,
    In (EvSettled j (Rejected e)) evs \/ In (EvThrew j e) evs ->
    s = Rejected e /\ forall k v', In (EvCall k v') evs -> k <= j.
Proof.
  induction 1 as [i v | i n v v'' evs s Hl IH | i n v e0 | i n v e0 | i n v];
    intros j e Hin; cbn [In] in Hin.
  - destruct Hin as [[] | []].
  - assert (Hin' : In (EvSettled j (Rejected e)) evs \/ In (EvThrew j e) evs).
    { destruct Hin as [[E | [E | Hin]] | [E | [E | Hin]]]; try discriminate; auto. }
    destruct (IH j e Hin') as [Hs Hcalls]. split; [exact Hs |].
    assert (Hj : S i <= j).
    { destruct Hin' as [H0 | H0]; apply (series_log_index _ _ _ _ _ Hl) in H0; exact H0. }
    intros k v' [E | [E | Hk]]; try discriminate.
    + injection E as E _. lia.
    + exact (Hcalls k v' Hk).
  - destruct Hin as [[E | [E | []]] | [E | [E | []]]]; try discriminate.
    injection E as Ej Ee. subst. split; [reflexivity |].
    intros k v' [E | [E | []]]; try discriminate. injection E as E _. lia.
  - destruct Hin as [[E | [E | []]] | [E | [E | []]]]; try discriminate.
    injection E as Ej Ee. subst. split; [reflexivity |].
    intros k v' [E | [E | []]]; try discriminate. injection E as E _. lia.
  - destruct Hin as [[E | []] | [E | []]]; discriminate.
Qed.

(** A series is fulfilled only when every function was called and the
    last promise was fulfilled, with the value of the series. *)
Lemma series_log_fulfilled i n v evs s :
  series_log i n v evs s ->
  forall r, s = Fulfilled r ->
    calls evs = seq i n
    /\ (n = 0 -> r = v)
    /\ (0 < n -> In (EvSettled (i + n - 1) (Fulfilled r)) evs).
Proof.
  intro H. induction H as [i v | i n v v' evs s Hlog IH | i n v e | i n v e | i n v];
    intros r Hr; try discriminate.
  - injection Hr as <-. split; [reflexivity |]. split; [reflexivity | lia].
  - destruct (IH r Hr) as [Hcalls [H0 Hpos]].
    split; [cbn [calls seq]; rewrite Hcalls; reflexivity |].
    split; [discriminate |]. intros _.
    destruct n as [| n'].
    + right. left. rewrite (H0 eq_refl). f_equal. lia.
    + right. right. replace (i + S (S n') - 1) with (S i + S n' - 1) by lia.
      apply Hpos. lia.
Qed.

(** Once the promise of a function is fulfilled the next function of the
    list, if there is one, is called at once, with the value of the
    fulfilment. *)
Lemma series_log_progress i n v evs s :
  series_log i n v evs s ->
  forall before j v' after,
    evs = before ++ EvSettled j (Fulfilled v') :: after ->
    S j < i + n ->
    exists after', after = EvCall (S j) v' :: after'.
Proof.
  induction 1 as [i v | i n v v'' evs s Hl IH | i n v e | i n v e | i n v];
    intros before j v' after E Hj.
  - destruct before; discriminate.
  - destruct before as [| b0 before]; [discriminate |].
    injection E as E0 E. subst b0.
    destruct before as [| b1 before].
    + injection E as Ej Ev Ea. subst j v'' after.
      inversion Hl; subst; try lia; eexists; reflexivity.
    + injection E as E1 E. subst b1.
      apply (IH _ _ _ _ E). lia.
  - destruct before as [| b0 before]; [discriminate |].
    injection E as E0 E. destruct before as [| b1 before]; [discriminate |].
    injection E as E1 E. destruct before; discriminate.
  - destruct before as [| b0 before]; [discriminate |].
    injection E as E0 E. destruct before as [| b1 before]; [discriminate |].
    injection E as E1 E. destruct before; discriminate.
  - destruct before as [| b0 before]; [discriminate |].
    injection E as E0 E. destruct before; discriminate.
Qed.

(** Every function of the list is called exactly when the promise of
    each function but the last is fulfilled. *)
Lemma series_log_all_called i n v evs s :
  series_log i n v evs s ->
  (calls evs = seq i n <->
   forall j, i <= j -> S j < i + n -> exists v', In (EvSettled j (Fulfilled v')) evs).
Proof.
  induction 1 as [i v | i n v v'' evs s Hl IH | i n v e | i n v e | i n v].
  - split; [intros _ j H1 H2; lia | reflexivity].
  - cbn [calls seq]. split.
    + intros E j H1 H2. injection E as E.
      destruct (Nat.eq_dec j i) as [-> | Hne].
      * exists v''. right. left. reflexivity.
      * destruct (proj1 IH E j ltac:(lia) ltac:(lia)) as [v' Hin].
        exists v'. right. right. exact Hin.
    + intro H. f_equal. apply (proj2 IH). intros j H1 H2.
      destruct (H j ltac:(lia) ltac:(lia)) as [v' [E | [E | Hin]]];
        [discriminate | injection E as E _; lia |].
      exists v'. exact Hin.
  - cbn [calls seq]. destruct n as [| n'].
    + split; [intros _ j H1 H2; lia | reflexivity].
    + split; [discriminate |]. intro H.
      destruct (H i ltac:(lia) ltac:(lia)) as [v' [E | [E | []]]]; discriminate.
  - cbn [calls seq]. destruct n as [| n'].
    + split; [intros _ j H1 H2; lia | reflexivity].
    + split; [discriminate |]. intro H.
      destruct (H i ltac:(lia) ltac:(lia)) as [v' [E | [E | []]]]; discriminate.
  - cbn [calls seq]. destruct n as [| n'].
    + split; [intros _ j H1 H2; lia | reflexivity].
    + split; [discriminate |]. intro H.
      destruct (H i ltac:(lia) ltac:(lia)) as [v' [E | []]]; discriminate.
Qed.

(** The spec's examples: three steps counting up settle to 3; when the
    second step's promise fails the third is never called and the chain
    fails with the same error. *)
Example series_counts_to_3 :
  runPromisesInSeries (spies 0 [resolve_one; resolve_succ; resolve_succ]) (tt, []) =
  (Fulfilled (VNum 3),
   (tt, [ EvCall 0 VUndefined; EvSettled 0 (Fulfilled (VNum 1));
          EvCall 1 (VNum 1); EvSettled 1 (Fulfilled (VNum 2));
          EvCall 2 (VNum 2); EvSettled 2 (Fulfilled (VNum 3)) ])).
Proof. reflexivity. Qed.

Example series_stops_at_failure :
  runPromisesInSeries
    (spies 0 [resolve_one; reject_with (VError "Error" "boom"); resolve_succ]) (tt, []) =
  (Rejected (VError "Error" "boom"),
   (tt, [ EvCall 0 VUndefined; EvSettled 0 (Fulfilled (VNum 1));
          EvCall 1 (VNum 1); EvSettled 1 (Rejected (VError "Error" "boom")) ])).
Proof. reflexivity. Qed.

(** A promise that never settles stalls the series, and a function that
    throws fails it like a rejection. *)
Example series_stalls :
  runPromisesInSeries (spies 0 [resolve_one; stall; resolve_succ]) (tt, []) =
  (Pending,
   (tt, [ EvCall 0 VUndefined; EvSettled 0 (Fulfilled (VNum 1)); EvCall 1 (VNum 1) ])).
Proof. reflexivity. Qed.

Example series_stops_at_throw :
  runPromisesInSeries
    (spies 0 [resolve_one; throw_now (VStr "oops"); resolve_succ]) (tt, []) =
  (Rejected (VStr "oops"),
   (tt, [ EvCall 0 VUndefined; EvSettled 0 (Fulfilled (VNum 1));
          EvCall 1 (VNum 1); EvThrew 1 (VStr "oops") ])).
Proof. reflexivity. Qed.

(** C5. For a non-empty list of promise-returning functions, watched by
    spies that change neither the outcome nor the world:
    the functions are called in the order of the list, without gaps;
    the first is called with [undefined]; every later one is called right
    after the promise of the one before was fulfilled, with the value of
    that fulfilment, and is called indeed as soon as that promise is
    fulfilled, so that every function is called exactly when the promises
    of all but the last are fulfilled; the promise returned settles as the
    last function's promise does, fulfilled with a value exactly when that
    promise is; and the steps [() => resolve(1)], [prev => resolve(prev+1)],
    [prev => resolve(prev+1)] settle to 3. *)
Theorem runPromisesInSeries_in_order {World} (fs : list (pfn World)) (w : World) :
  fs <> [] ->
  exists tr,
    runPromisesInSeries (spies 0 fs) (w, []) =
      (fst (runPromisesInSeries fs w), (snd (runPromisesInSeries fs w), tr))
    /\ (exists k, k <= length fs /\ calls tr = seq 0 k)
    /\ (exists after, tr = EvCall 0 VUndefined :: after)
    /\ (forall before j v after,
          tr = before ++ EvCall (S j) v :: after ->
          exists before', before = before' ++ [EvSettled j (Fulfilled v)])
    /\ (forall s, In (EvSettled (length fs - 1) s) tr ->
                  fst (runPromisesInSeries fs w) = s)
    /\ fst (runPromisesInSeries [resolve_one; resolve_succ; resolve_succ] tt) =
       Fulfilled (VNum 3)
    /\ (forall before j v after,
          tr = before ++ EvSettled j (Fulfilled v) :: after ->
          S j < length fs ->
          exists after', after = EvCall (S j) v :: after')
    /\ (calls tr = seq 0 (length fs) <->
        forall j, S j < length fs -> exists v, In (EvSettled j (Fulfilled v)) tr)
    /\ (forall r, fst (runPromisesInSeries fs w) = Fulfilled r <->
                  In (EvSettled (length fs - 1) (Fulfilled r)) tr).
Proof.
  intro Hne.
  destruct (runPromisesInSeries_spied fs w) as [tr [Hrun Hlog]].
  assert (Hlen : 0 < length fs) by (destruct fs; [congruence | cbn; lia]).
  exists tr. split; [exact Hrun |].
  split; [| split; [| split; [| split; [| split; [| split; [| split]]]]]].
  - exact (series_log_calls _ _ _ _ _ Hlog).
  - destruct fs as [| f rest]; [congruence |]. cbn [length] in Hlog.
    inversion Hlog; subst; eexists; reflexivity.
  - intros before j v after E.
    destruct (series_log_call_preceded _ _ _ _ _ Hlog _ _ _ _ E)
      as [[_ [Hj _]] | [b' [j' [Hj Hb]]]]; [discriminate |].
    injection Hj as Hj. subst j'. exists b'. exact Hb.
  - intros s Hin. exact (series_log_last _ _ _ _ _ Hlog s Hin).
  - reflexivity.
  - intros before j v after E Hj.
    exact (series_log_progress _ _ _ _ _ Hlog _ _ _ _ E Hj).
  - pose proof (series_log_all_called _ _ _ _ _ Hlog) as H. split.
    + intros E j Hj. apply (proj1 H E j); lia.
    + intro Hall. apply (proj2 H). intros j _ Hj. apply Hall. exact Hj.
  - intro r. split.
    + intro Hr.
      destruct (series_log_fulfilled _ _ _ _ _ Hlog r Hr) as [_ [_ Hpos]].
      apply Hpos. exact Hlen.
    + intro Hin. exact (series_log_last _ _ _ _ _ Hlog _ Hin).
Qed.

Lemma runPromisesInSeries_in_order_witness :
  [resolve_one; resolve_succ; resolve_succ] <> [] /\
  exists tr,
    runPromisesInSeries (spies 0 [resolve_one; resolve_succ; resolve_succ]) (tt, []) =
      (fst (runPromisesInSeries [resolve_one; resolve_succ; resolve_succ] tt),
       (snd (runPromisesInSeries [resolve_one; resolve_succ; resolve_succ] tt), tr))
    /\ (exists k, k <= 3 /\ calls tr = seq 0 k).
Proof.
  split; [discriminate |].
  destruct (runPromisesInSeries_in_order [resolve_one; resolve_succ; resolve_succ] tt
              ltac:(discriminate)) as [tr [Hrun [Hcalls _]]].
  exists tr. split; [exact Hrun | exact Hcalls].
Defined.

(** C6. If the promise returned by the function at position [i] fails
    with error [e] (or that function throws [e]), then the promise returned
    by [runPromisesInSeries] fails with exactly [e], and no function at a
    position after [i] is called. *)
Theorem runPromisesInSeries_fail_fast {World} (fs : list (pfn World)) (w : World)
    (i : nat) (e : value) :
  In (EvSettled i (Rejected e)) (snd (snd (runPromisesInSeries (spies 0 fs) (w, []))))
  \/ In (EvThrew i e) (snd (snd (runPromisesInSeries (spies 0 fs) (w, [])))) ->
  fst (runPromisesInSeries fs w) = Rejected e
  /\ fst (runPromisesInSeries (spies 0 fs) (w, [])) = Rejected e
  /\ forall k v,
       In (EvCall k v) (snd (snd (runPromisesInSeries (spies 0 fs) (w, [])))) -> k <= i.
Proof.
  destruct (runPromisesInSeries_spied fs w) as [tr [Hrun Hlog]].
  rewrite Hrun. cbn [fst snd]. intro Hin.
  destruct (series_log_fail_fast _ _ _ _ _ Hlog i e Hin) as [Hs Hcalls].
  repeat split; [exact Hs | exact Hs | exact Hcalls].
Qed.

Lemma runPromisesInSeries_fail_fast_witness :
  fst (runPromisesInSeries
         [resolve_one; reject_with (VError "Error" "boom"); resolve_succ] tt) =
    Rejected (VError "Error" "boom")
  /\ forall k v,
       In (EvCall k v)
          (snd (snd (runPromisesInSeries
                       (spies 0 [resolve_one; reject_with (VError "Error" "boom");
                                 resolve_succ]) (tt, [])))) -> k <= 1.
Proof.
  assert (Hin : In (EvSettled 1 (Rejected (VError "Error" "boom")))
                   (snd (snd (runPromisesInSeries
                       (spies 0 [resolve_one; reject_with (VError "Error" "boom");
                                 resolve_succ]) (tt, []))))).
  { cbn. tauto. }
  destruct (runPromisesInSeries_fail_fast
              [resolve_one; reject_with (VError "Error" "boom"); resolve_succ] tt 1
              (VError "Error" "boom") (or_introl Hin)) as [Hs [_ Hcalls]].
  split; [exact Hs | exact Hcalls].
Defined.

End SeriesFacts.

(** ** Further laws of the combinators *)

Module SyncLaws.
Import Sync SyncFacts.
Local Open Scope js_scope.

Section Laws.
Context {World : Type}.



Lemma call_groups_short (fn : func World) k groups : forall acc w,
  length acc + length (concat groups) < k ->
  call_groups (Bound fn k acc) groups w =
  (Normal (Bound fn k (acc ++ concat groups)), w).
Proof.
  induction groups as [| g rest IH]; intros acc w H; cbn [concat] in *.
  - cbn [call_groups]. rewrite app_nil_r. reflexivity.
  - rewrite length_app in H. cbn [call_groups]. unfold bind at 1.
    rewrite call_curried_short by (rewrite length_app; lia).
    rewrite IH by (rewrite length_app; lia). rewrite app_assoc. reflexivity.
Qed.

Lemma call_groups_app l1 : forall l2 (c : curried (World := World)) w,
  call_groups c (l1 ++ l2) w =
  bind (call_groups c l1) (fun c' => call_groups c' l2) w.
Proof.
  induction l1 as [| g l1 IH]; intros l2 c w.
  - reflexivity.
  - cbn [app call_groups]. rewrite bind_assoc.
    apply bind_ext; [reflexivity |]. intros c' w'. apply IH.
Qed.

Lemma curry_starts_bound (fn : func World) (k : nat) (arity : option nat) w :
  0 < k ->
  (arity = None /\ fn_length fn = k) \/ arity = Some k ->
  curry fn arity [] w = (Normal (Bound fn k []), w).
Proof.
  intros Hk Harity. unfold curry. cbn [length].
  destruct Harity as [[-> E] | ->]; [rewrite E |];
    (destruct k; [lia | reflexivity]).
Qed.

End Laws.



(** X27. What [curry(fn)] returns holds [fn] back until the arity is
    reached: application steps whose arguments together stay below the
    arity, empty steps included, call nothing, leave the world as it was
    and give a partial application holding the arguments so far; the step
    that reaches or passes the arity calls [fn] once, with all the
    arguments given, those beyond the arity too. *)
Theorem curry_waits_for_arity {World} (fn : func World) (k : nat) (arity : option nat) :
  (arity = None /\ fn_length fn = k) \/ arity = Some k ->
  (forall groups w,
      length (concat groups) < k ->
      bind (curry fn arity []) (fun c => call_groups c groups) w =
      (Normal (Bound fn k (concat groups)), w))
  /\ (forall init g w,
      length (concat init) < k <= length (concat init ++ g) ->
      bind (curry fn arity []) (fun c => call_groups c (init ++ [g])) w =
      bind (fn_call fn (concat init ++ g)) (fun v => ret (Value v)) w).
Proof.
  intro Harity. split.
  - intros groups w H. unfold bind at 1.
    rewrite (curry_starts_bound fn k arity w ltac:(lia) Harity).
    apply (call_groups_short fn k groups [] w). cbn [length]. lia.
  - intros init g w [Hlt Hle]. unfold bind at 1.
    rewrite (curry_starts_bound fn k arity w ltac:(lia) Harity).
    rewrite call_groups_app. unfold bind at 1.
    rewrite (call_groups_short fn k init [] w) by (cbn [length]; lia).
    cbn [app call_groups]. unfold bind at 1.
    rewrite call_curried_enough by exact Hle.
    unfold bind, ret. destruct (fn_call fn (concat init ++ g) w) as [[v | e] w'];
      reflexivity.
Qed.

Lemma curry_waits_for_arity_witness :
  bind (curry add3 None [])
       (fun c => call_groups c [[]; [VNum 1]; []; [VNum 2; VNum 3; VNum 4]]) tt =
  (Normal (Value (VNum 6)), tt)
  /\ bind (curry add3 None []) (fun c => call_groups c [[]; [VNum 1]; []]) tt =
     (Normal (Bound add3 3 [VNum 1]), tt).
Proof.
  split.
  - exact (proj2 (curry_waits_for_arity add3 3 None (or_introl (conj eq_refl eq_refl)))
             [[]; [VNum 1]; []] [VNum 2; VNum 3; VNum 4] tt
             ltac:(cbn; lia)).
  - exact (proj1 (curry_waits_for_arity add3 3 None (or_introl (conj eq_refl eq_refl)))
             [[]; [VNum 1]; []] tt ltac:(cbn; lia)).
Defined.

End SyncLaws.

Module PromisifyLaws.
Import Promisify PromisifyFacts.

Lemma take_due_None (ts : list timer) : take_due ts = None -> ts = [].
Proof.
  destruct ts as [| t rest]; [reflexivity |]. cbn [take_due].
  destruct (take_due rest) as [[t' rest'] |]; [| discriminate].
  destruct (due t <=? due t'); discriminate.
Qed.

Section Laws.
Context {World : Type}.
Implicit Type s : state World.

(** Once the promise is settled the callback changes nothing. *)
Lemma settled_callback cargs s :
  settled s <> Pending ->
  settled (snd (callback resolve reject cargs s)) = settled s.
Proof.
  intro H. unfold callback, resolve, reject, log. cbn [snd settled].
  destruct (truthy (arg 0 cargs)); destruct (settled s) eqn:E;
    cbn [settled]; congruence.
Qed.

Lemma settled_run_timers fuel : forall s,
  settled s <> Pending -> settled (run_timers fuel s) = settled s.
Proof.
  induction fuel as [| fuel IH]; intros s H; cbn [run_timers]; [reflexivity |].
  destruct (take_due (timers s)) as [[t rest] |]; [| reflexivity].
  assert (Hc : settled (snd (callback resolve reject (targs t) (fire t rest s))) =
               settled s).
  { apply (settled_callback (targs t) (fire t rest s)). exact H. }
  rewrite IH; [exact Hc | rewrite Hc; exact H].
Qed.

Lemma run_timers_idle fuel s : timers s = [] -> run_timers fuel s = s.
Proof. intro H. destruct fuel; cbn [run_timers]; [| rewrite H]; reflexivity. Qed.

Lemma run_timers_add a : forall b s,
  run_timers (a + b) s = run_timers b (run_timers a s).
Proof.
  induction a as [| a IH]; intros b s; [reflexivity |].
  cbn [Nat.add run_timers].
  destruct (take_due (timers s)) as [[t rest] |] eqn:E.
  - apply IH.
  - symmetry. apply run_timers_idle, take_due_None, E.
Qed.

(** A body that neither throws nor uses the callback returns, and leaves
    the promise and the timers as they were. *)
Lemma exec_plain (p : prog World) : forall s,
  plain p ->
  exists v s',
    exec world set_world (fun msg => log (EvEffect msg))
         (callback resolve reject) add_timer p s = (Normal v, s')
    /\ settled s' = settled s /\ timers s' = timers s.
Proof.
  induction p as [v | e | msg k IH | k IH | w k IH | cargs k IH | delay cargs k IH];
    intros s Hp; cbn [plain] in Hp; cbn [exec]; try contradiction.
  - exists v, s. repeat split.
  - destruct (IH (log (EvEffect msg) s) Hp) as [v [s' [E [H1 H2]]]].
    exists v, s'. repeat split; assumption.
  - destruct (IH (world s) s (Hp (world s))) as [v [s' [E [H1 H2]]]].
    exists v, s'. repeat split; assumption.
  - destruct (IH (set_world w s) Hp) as [v [s' [E [H1 H2]]]].
    exists v, s'. repeat split; assumption.
Qed.

End Laws.

(** X28. The promise of [promisify(fn)(...args)] settles at most once and
    never by itself: once it is settled, nothing that happens later
    changes how; if [fn] throws before any call of the callback, it is
    rejected with what [fn] threw; and if [fn] returns without throwing,
    calling the callback or arranging a later call, it stays pending for
    ever. *)
Theorem promisify_settles_once {World}
    (fn : list value -> prog World) (args : list value) (w : World) :
  (forall fuel fuel',
      fuel <= fuel' ->
      settled (run_timers fuel (promisify fn args w)) <> Pending ->
      settled (run_timers fuel' (promisify fn args w)) =
      settled (run_timers fuel (promisify fn args w)))
  /\ (forall fuel before e after,
      trace (run_timers fuel (promisify fn args w)) = before ++ EvThrown e :: after ->
      first_settling before = Pending ->
      settled (run_timers fuel (promisify fn args w)) = Rejected e)
  /\ (plain (fn args) ->
      forall fuel, settled (run_timers fuel (promisify fn args w)) = Pending).
Proof.
  split; [| split].
  - intros fuel fuel' Hle H.
    replace fuel' with (fuel + (fuel' - fuel)) by lia.
    rewrite run_timers_add. apply settled_run_timers, H.
  - intros fuel before e after Htr Hbefore.
    pose proof (consistent_run_timers fuel _ (consistent_promisify fn args w)) as H.
    unfold consistent in H. rewrite Htr, first_settling_app, Hbefore in H.
    exact H.
  - intros Hp fuel. unfold promisify, new_Promise.
    destruct (exec_plain (fn args) (mkState w Pending 0 [] []) Hp)
      as [v [s' [E [H1 H2]]]].
    rewrite E. rewrite run_timers_idle by exact H2. exact H1.
Qed.

Lemma promisify_settles_once_witness :
  settled (run_timers 5
             (promisify (fun _ => Schedule 10 [VError "Error" "late"]
                                    (Invoke [VNum 0; VNum 42] (propagate Return))) [] tt)) =
  Fulfilled (VNum 42)
  /\ settled (promisify (fun _ => Effect (VStr "working") (Throw (VStr "oops"))) [] tt) =
     Rejected (VStr "oops")
  /\ settled (run_timers 5 (promisify (fun _ => Effect (VStr "working") (Return VNull))
                                      [] tt)) = Pending.
Proof.
  split; [| split].
  - rewrite (proj1 (promisify_settles_once
                      (fun _ => Schedule 10 [VError "Error" "late"]
                                  (Invoke [VNum 0; VNum 42] (propagate Return)))
                      [] tt) 0 5).
    + reflexivity.
    + lia.
    + discriminate.
  - exact (proj1 (proj2 (promisify_settles_once
                           (fun _ => Effect (VStr "working") (Throw (VStr "oops"))) [] tt))
             0 [EvEffect (VStr "working")] (VStr "oops") [] eq_refl eq_refl).
  - exact (proj2 (proj2 (promisify_settles_once
                           (fun _ => Effect (VStr "working") (Return VNull)) [] tt))
             I 5).
Defined.

End PromisifyLaws.

Module ChainLaws.
Import Chain ChainFacts.

Lemma calls_of_next_app l1 l2 :
  calls_of_next (l1 ++ l2) = calls_of_next l1 + calls_of_next l2.
Proof.
  induction l1 as [| ev l1 IH]; [reflexivity |].
  destruct ev; cbn [app calls_of_next]; rewrite IH; reflexivity.
Qed.

Section Steps.
Context {World : Type}.
Variable fns : list (prog World).
Implicit Type s : state World.

Lemma counted_log ev s :
  (forall who, ev <> EvNext who) -> counted s -> counted (log ev s).
Proof.
  unfold counted, log. cbn [trace curr]. intros Hev H.
  rewrite calls_of_next_app, H.
  destruct ev; cbn [calls_of_next]; try lia. exfalso. exact (Hev who eq_refl).
Qed.

Lemma counted_run_step d i
      (IH : forall who s, counted s -> counted (snd (next fns d who s))) :
  forall p s, counted s -> counted (snd (run_step fns d i p s)).
Proof.
  unfold run_step.
  induction p as [v | e | msg k IHk | k IHk | w k IHk | cargs k IHk | delay cargs k IHk];
    intros s Hs; cbn [exec].
  - exact Hs.
  - exact Hs.
  - apply IHk, counted_log; [discriminate | exact Hs].
  - apply IHk. exact Hs.
  - apply IHk. exact Hs.
  - pose proof (IH (ByStep i) s Hs) as H.
    destruct (next fns d (ByStep i) s) as [c s']. apply IHk, H.
  - apply IHk. exact Hs.
Qed.

(** Every call of [next] adds one to [curr], past the end too. *)
Lemma counted_next d : forall who s,
  counted s -> counted (snd (next fns d who s)).
Proof.
  induction d as [| d IH]; intros who s Hs; [exact Hs |].
  assert (H1 : counted (set_curr (S (curr s)) (log (EvNext who) s))).
  { unfold counted, set_curr, log in *. cbn [trace curr].
    rewrite calls_of_next_app, Hs. cbn [calls_of_next]. lia. }
  rewrite next_S. cbv zeta.
  destruct (nth_error fns (curr s)) as [step |].
  - apply (counted_run_step d (curr s) IH).
    apply (counted_log (EvStart (curr s))); [discriminate | exact H1].
  - cbn [snd]. apply (counted_log EvPastEnd); [discriminate | exact H1].
Qed.

Lemma counted_run_timers fuel : forall s,
  counted s -> counted (run_timers fns fuel s).
Proof.
  induction fuel as [| fuel IH]; intros s Hs; cbn [run_timers]; [exact Hs |].
  destruct (take_due (timers s)) as [[t rest] |]; [| exact Hs].
  pose proof (counted_next (stack fns) (ByStep (owner t)) (fire t rest s) Hs) as H.
  destruct (next fns (stack fns) (ByStep (owner t)) _) as [[v | e] s2]; cbn [snd] in H.
  - apply IH, H.
  - apply IH, counted_log; [discriminate | exact H].
Qed.

Lemma counted_chainAsync w fuel : counted (chainAsync_then fns w fuel).
Proof.
  unfold chainAsync_then. apply counted_run_timers.
  rewrite snd_chainAsync. apply counted_next. reflexivity.
Qed.

End Steps.

(** X29. Whatever the steps of [chainAsync(fns)] do with [next] (call it
    several times, at once or from timers, catch what it throws), at any
    point of the run [curr] is the number of calls of [next] made so far,
    and the steps started so far are the first of the list, in the order
    of the list and once each: as many as there were calls of [next], and
    all of them once the calls outnumber the steps.  There is always at
    least one call, the one [chainAsync] makes itself. *)
Theorem chainAsync_steps_once_in_order {World} (fns : list (prog World)) (w : World)
    (fuel : nat) :
  curr (chainAsync_then fns w fuel) =
    calls_of_next (trace (chainAsync_then fns w fuel))
  /\ starts (trace (chainAsync_then fns w fuel)) =
     seq 0 (Nat.min (calls_of_next (trace (chainAsync_then fns w fuel))) (length fns))
  /\ NoDup (starts (trace (chainAsync_then fns w fuel)))
  /\ 1 <= calls_of_next (trace (chainAsync_then fns w fuel)).
Proof.
  pose proof (counted_chainAsync fns w fuel) as Hc.
  pose proof (in_order_chainAsync fns w fuel) as Ho.
  unfold counted in Hc. unfold in_order in Ho.
  split; [symmetry; exact Hc |]. split; [rewrite Hc; exact Ho |].
  split; [rewrite Ho; apply seq_NoDup |].
  rewrite Hc. unfold chainAsync_then.
  assert (Hmono : forall fuel' (s : state World),
             curr s <= curr (run_timers fns fuel' s)).
  { induction fuel' as [| fuel' IH]; intro s; cbn [run_timers]; [lia |].
    destruct (take_due (timers s)) as [[t rest] |]; [| lia].
    pose proof (proj2 (next_depth fns (stack fns) (stack fns) (ByStep (owner t))
                         (fire t rest s)
                         ltac:(unfold stack; lia) ltac:(unfold stack; lia))) as Hn.
    destruct (next fns (stack fns) (ByStep (owner t)) (fire t rest s)) as [[v | e] s2];
      cbn [snd] in Hn.
    - specialize (IH s2). cbn [fire curr] in Hn. lia.
    - specialize (IH (log (EvUncaught e) s2)). cbn [fire log curr] in *. lia. }
  specialize (Hmono fuel (snd (chainAsync fns w))).
  rewrite snd_chainAsync in *.
  assert (H1 : 1 <= curr (snd (next fns (stack fns) ByChain (init w)))).
  { unfold stack. rewrite next_S. cbv zeta. cbn [init curr].
    destruct (nth_error fns 0) as [step |] eqn:E.
    - assert (Hlen : 0 < length fns) by (apply nth_error_Some; congruence).
      pose proof (run_step_depth fns (length fns) (length fns) 0
                    (fun who s H1 H2 => next_depth fns (length fns) (length fns) who s H1 H2)
                    step
                    (log (EvStart 0) (set_curr 1 (log (EvNext ByChain) (init w))))) as Hr.
      cbn [log set_curr curr init] in Hr.
      specialize (Hr ltac:(lia) ltac:(lia)).
      exact (proj2 Hr).
    - cbn [snd log set_curr curr]. lia. }
  lia.
Qed.

End ChainLaws.

Module SeriesLaws.
Import Series SeriesFacts.

(** A series stays pending exactly when a function was called whose
    promise never settled. *)
Lemma series_log_pending i n v evs s :
  series_log i n v evs s ->
  (s = Pending <->
   exists j v', In (EvCall j v') evs
                /\ (forall s', ~ In (EvSettled j s') evs)
                /\ (forall e, ~ In (EvThrew j e) evs)).
Proof.
  intro H. induction H as [i v | i n v v' evs s Hlog IH | i n v e | i n v e | i n v].
  - split; [discriminate |]. intros [j [v' [[] _]]].
  - pose proof (series_log_index _ _ _ _ _ Hlog) as Hidx. split.
    + intro Hs. destruct (proj1 IH Hs) as [j [w [Hcall [Hset Hthr]]]].
      pose proof (Hidx _ Hcall) as Hj. cbn [index] in Hj.
      exists j, w. split; [right; right; exact Hcall |]. split.
      * intros s' [E | [E | Hin]]; [discriminate | injection E as E _; lia |].
        exact (Hset s' Hin).
      * intros e [E | [E | Hin]]; [discriminate | discriminate |].
        exact (Hthr e Hin).
    + intros [j [w [Hcall [Hset Hthr]]]]. apply (proj2 IH).
      destruct Hcall as [E | [E | Hcall]]; [| discriminate |].
      * injection E as <- _. exfalso. apply (Hset (Fulfilled v')). right. left. reflexivity.
      * exists j, w. split; [exact Hcall |]. split.
        -- intros s' Hin. apply (Hset s'). right. right. exact Hin.
        -- intros e Hin. apply (Hthr e). right. right. exact Hin.
  - split; [discriminate |]. intros [j [w [Hcall [Hset _]]]].
    destruct Hcall as [E | [E | []]]; [| discriminate].
    injection E as <- _. exfalso. apply (Hset (Rejected e)). right. left. reflexivity.
  - split; [discriminate |]. intros [j [w [Hcall [_ Hthr]]]].
    destruct Hcall as [E | [E | []]]; [| discriminate].
    injection E as <- _. exfalso. apply (Hthr e). right. left. reflexivity.
  - split; [| reflexivity]. intros _. exists i, v. split; [left; reflexivity |].
    split; intros x [E | []]; discriminate.
Qed.

(** X30. How [runPromisesInSeries(fs)] can end, by the log of spies that
    change neither the outcome nor the world: the returned promise stays
    pending exactly when one of the functions was called and the promise
    it returned never settled; and it is fulfilled only when every
    function of the list was called, in order, and the promise of the
    last one was fulfilled, with the same value ([undefined] for an empty
    list). *)
Theorem runPromisesInSeries_outcome {World} (fs : list (pfn World)) (w : World) :
  exists tr,
    runPromisesInSeries (spies 0 fs) (w, []) =
      (fst (runPromisesInSeries fs w), (snd (runPromisesInSeries fs w), tr))
    /\ (fst (runPromisesInSeries fs w) = Pending <->
        exists j v, In (EvCall j v) tr
                    /\ (forall s, ~ In (EvSettled j s) tr)
                    /\ (forall e, ~ In (EvThrew j e) tr))
    /\ (forall r, fst (runPromisesInSeries fs w) = Fulfilled r ->
          calls tr = seq 0 (length fs)
          /\ (fs = [] -> r = VUndefined)
          /\ (fs <> [] -> In (EvSettled (length fs - 1) (Fulfilled r)) tr)).
Proof.
  destruct (runPromisesInSeries_spied fs w) as [tr [Hrun Hlog]].
  exists tr. split; [exact Hrun |]. split.
  - exact (series_log_pending _ _ _ _ _ Hlog).
  - intros r Hr.
    destruct (series_log_fulfilled _ _ _ _ _ Hlog r Hr) as [Hcalls [H0 Hpos]].
    split; [exact Hcalls |]. split.
    + intros ->. apply H0. reflexivity.
    + intro Hne. apply Hpos. destruct fs; [congruence | cbn; lia].
Qed.

End SeriesLaws.

(** ** Arrays *)

Module ArraysFacts.
Import Arrays.
Local Open Scope Z_scope.

(** *** Slices *)

Lemma firstn_min {A} (n : nat) (l : list A) :
  firstn n l = firstn (Nat.min n (length l)) l.
Proof.
  destruct (Nat.le_ge_cases n (length l)) as [H | H].
  - rewrite Nat.min_l by exact H. reflexivity.
  - rewrite Nat.min_r by exact H. rewrite firstn_all. apply firstn_all2. exact H.
Qed.

Lemma firstn_same {A} (n m : nat) (l : list A) :
  Nat.min n (length l) = Nat.min m (length l) -> firstn n l = firstn m l.
Proof. intro H. rewrite (firstn_min n), (firstn_min m), H. reflexivity. Qed.

Lemma skipn_same {A} (n m : nat) (l : list A) :
  Nat.min n (length l) = Nat.min m (length l) -> skipn n l = skipn m l.
Proof.
  intro H.
  destruct (Nat.le_ge_cases n (length l)) as [Hn | Hn];
    destruct (Nat.le_ge_cases m (length l)) as [Hm | Hm].
  - f_equal. lia.
  - assert (n = length l) by lia. subst n. rewrite skipn_all.
    symmetry. apply skipn_all2. exact Hm.
  - assert (m = length l) by lia. subst m. rewrite skipn_all.
    apply skipn_all2. exact Hn.
  - rewrite !skipn_all2 by assumption. reflexivity.
Qed.

(** A slice between two indices that are not negative. *)
Lemma slice_nat {A} (arr : list A) (s e : nat) :
  slice arr (Z.of_nat s) (Z.of_nat e) = firstn (e - s) (skipn s arr).
Proof.
  unfold slice, relative.
  destruct (Z.ltb_spec (Z.of_nat s) 0) as [Hs | _]; [lia |].
  destruct (Z.ltb_spec (Z.of_nat e) 0) as [He | _]; [lia |].
  rewrite (skipn_same (Z.to_nat (Z.min (Z.of_nat s) (Z.of_nat (length arr)))) s) by lia.
  apply firstn_same. rewrite length_skipn. lia.
Qed.

(** A slice from the start to an index counted back from the end. *)
Lemma slice_to_end_minus {A} (arr : list A) (k : nat) :
  (0 < k)%nat ->
  slice arr 0 (- Z.of_nat k) = firstn (length arr - k) arr.
Proof.
  intro Hk. unfold slice, relative.
  destruct (Z.ltb_spec 0 0) as [H0 | _]; [lia |].
  destruct (Z.ltb_spec (- Z.of_nat k) 0) as [_ | H]; [| lia].
  replace (Z.to_nat (Z.min 0 (Z.of_nat (length arr)))) with 0%nat by lia.
  rewrite skipn_0. apply firstn_same. lia.
Qed.

(** A slice from an index counted back from the end to the end. *)
Lemma slice_from_end_minus {A} (arr : list A) (k : nat) :
  (0 < k)%nat ->
  slice arr (- Z.of_nat k) (Z.of_nat (length arr)) = skipn (length arr - k) arr.
Proof.
  intro Hk. unfold slice, relative.
  destruct (Z.ltb_spec (- Z.of_nat k) 0) as [_ | H]; [| lia].
  destruct (Z.ltb_spec (Z.of_nat (length arr)) 0) as [H | _]; [lia |].
  rewrite (skipn_same (Z.to_nat (Z.max (Z.of_nat (length arr) + - Z.of_nat k) 0))
                      (length arr - k)) by lia.
  rewrite firstn_all2; [reflexivity |]. rewrite length_skipn. lia.
Qed.

Lemma at_nat (arr : list value) (i : nat) : at_ arr (Z.of_nat i) = nth i arr VUndefined.
Proof.
  unfold at_. destruct (Z.ltb_spec (Z.of_nat i) 0) as [H | _]; [lia |].
  rewrite Nat2Z.id. reflexivity.
Qed.

Lemma takeRight_within {A} (arr : list A) (n : option Z) :
  0 <= or_default 1 n <= Z.of_nat (length arr) ->
  takeRight arr n = skipn (length arr - Z.to_nat (or_default 1 n)) arr.
Proof.
  intro H. unfold takeRight. set (k := or_default 1 n) in *.
  replace (Z.of_nat (length arr) - k) with (Z.of_nat (length arr - Z.to_nat k)) by lia.
  rewrite slice_nat. apply firstn_all2. rewrite length_skipn. lia.
Qed.

Lemma dropRight_within {A} (arr : list A) (n : option Z) :
  0 <= or_default 1 n <= Z.of_nat (length arr) ->
  dropRight arr n = firstn (length arr - Z.to_nat (or_default 1 n)) arr.
Proof.
  intro H. unfold dropRight. set (k := or_default 1 n) in *.
  destruct (Z.ltb_spec k (Z.of_nat (length arr))) as [Hlt | Hge].
  - replace (Z.of_nat (length arr) - k) with (Z.of_nat (length arr - Z.to_nat k)) by lia.
    rewrite (slice_nat arr 0). rewrite skipn_0. f_equal. lia.
  - replace (length arr - Z.to_nat k)%nat with 0%nat by lia. reflexivity.
Qed.

(** X1. For [0 <= n <= arr.length], [dropRight(arr, n)] followed by
    [takeRight(arr, n)] is the array again: [takeRight] gives the last [n]
    elements and [dropRight] the others. *)
Theorem dropRight_takeRight {A} (arr : list A) (n : option Z) :
  0 <= or_default 1 n <= Z.of_nat (length arr) ->
  dropRight arr n ++ takeRight arr n = arr
  /\ Z.of_nat (length (takeRight arr n)) = or_default 1 n
  /\ Z.of_nat (length (dropRight arr n)) = Z.of_nat (length arr) - or_default 1 n.
Proof.
  intro H. rewrite takeRight_within, dropRight_within by exact H.
  split; [apply firstn_skipn |]. split.
  - rewrite length_skipn. lia.
  - rewrite length_firstn. lia.
Qed.

Lemma dropRight_takeRight_witness :
  dropRight [VNum 1; VNum 2; VNum 3] (Some 2) ++ takeRight [VNum 1; VNum 2; VNum 3] (Some 2)
  = [VNum 1; VNum 2; VNum 3].
Proof.
  refine (proj1 (dropRight_takeRight [VNum 1; VNum 2; VNum 3] (Some 2) _)).
  cbn. lia.
Defined.



(** X3. [take(arr, n)] is a prefix of the array: its first [n] elements
    for [n >= 0], so all of it once [n] reaches the length, and the array
    without its last [-n] elements for a negative [n]. *)
Theorem take_prefix {A} (arr : list A) (n : option Z) :
  (exists rest, arr = take arr n ++ rest)
  /\ (0 <= or_default 1 n ->
      take arr n = firstn (Z.to_nat (or_default 1 n)) arr
      /\ Z.of_nat (length (take arr n)) = Z.min (or_default 1 n) (Z.of_nat (length arr)))
  /\ (Z.of_nat (length arr) <= or_default 1 n -> take arr n = arr)
  /\ (or_default 1 n < 0 ->
      take arr n = firstn (length arr - Z.to_nat (- or_default 1 n)) arr).
Proof.
  unfold take. set (k := or_default 1 n).
  assert (Hpos : 0 <= k -> slice arr 0 k = firstn (Z.to_nat k) arr).
  { intro H. rewrite <- (Z2Nat.id k) at 1 by exact H.
    rewrite (slice_nat arr 0). rewrite skipn_0. f_equal. lia. }
  assert (Hneg : k < 0 -> slice arr 0 k = firstn (length arr - Z.to_nat (- k)) arr).
  { intro H. replace k with (- Z.of_nat (Z.to_nat (- k))) at 1 by lia.
    apply slice_to_end_minus. lia. }
  split; [| split; [| split]].
  - destruct (Z.lt_ge_cases k 0) as [H | H].
    + rewrite (Hneg H). eexists. symmetry. apply firstn_skipn.
    + rewrite (Hpos H). eexists. symmetry. apply firstn_skipn.
  - intro H. rewrite (Hpos H). split; [reflexivity |]. rewrite length_firstn. lia.
  - intro H. rewrite Hpos by lia. apply firstn_all2. lia.
  - exact Hneg.
Qed.

Lemma take_prefix_witness :
  take [VNum 1; VNum 2; VNum 3] (Some 5) = [VNum 1; VNum 2; VNum 3].
Proof.
  refine (proj1 (proj2 (proj2 (take_prefix [VNum 1; VNum 2; VNum 3] (Some 5)))) _).
  cbn. lia.
Defined.

(** X4. The head and the tail make up the array only from two elements
    on: [tail] leaves an array of at most one element as it is, so the
    tail of a one-element array is that array and not the empty one. *)
Theorem head_tail (arr : list value) :
  ((2 <= length arr)%nat -> head arr :: tail arr = arr)
  /\ ((length arr <= 1)%nat -> tail arr = arr)
  /\ (arr = [] -> head arr = VUndefined).
Proof.
  unfold tail, head. repeat split.
  - intro H. destruct (Z.ltb_spec 1 (Z.of_nat (length arr))) as [_ | Hle]; [| lia].
    unfold slice_from. rewrite (slice_nat arr 1).
    destruct arr as [| x rest]; [cbn in H; lia |].
    rewrite (at_nat _ 0). cbn [nth skipn]. f_equal.
    apply firstn_all2. cbn [length]. lia.
  - intro H. destruct (Z.ltb_spec 1 (Z.of_nat (length arr))) as [Hlt | _]; [lia |].
    reflexivity.
  - intros ->. reflexivity.
Qed.

Lemma head_tail_witness :
  head [VNum 1; VNum 2; VNum 3] :: tail [VNum 1; VNum 2; VNum 3] = [VNum 1; VNum 2; VNum 3]
  /\ tail [VNum 1] = [VNum 1].
Proof.
  split.
  - refine (proj1 (head_tail [VNum 1; VNum 2; VNum 3]) _). cbn. lia.
  - refine (proj1 (proj2 (head_tail [VNum 1])) _). cbn. lia.
Defined.

Lemma firstn_app_last {A} (l : list A) (d : A) :
  l <> [] -> firstn (length l - 1) l ++ [nth (length l - 1) l d] = l.
Proof.
  induction l as [| x r IH]; intro H; [congruence |].
  destruct r as [| y r']; [reflexivity |].
  replace (length (x :: y :: r') - 1)%nat with (S (length (y :: r') - 1)) by (cbn; lia).
  cbn [firstn nth app]. f_equal. apply IH. discriminate.
Qed.

(** X5. For a non-empty array, [initial(arr)] followed by [last(arr)] is
    the array again; the empty array has an empty [initial] and
    [undefined] as its [last]. *)
Theorem initial_last (arr : list value) :
  (arr <> [] -> initial arr ++ [last arr] = arr)
  /\ (arr = [] -> initial arr = [] /\ last arr = VUndefined).
Proof.
  split.
  - intro H. unfold initial, last.
    change (slice arr 0 (-1)) with (slice arr 0 (- Z.of_nat 1)).
    rewrite (slice_to_end_minus arr 1) by lia.
    replace (Z.of_nat (length arr) - 1) with (Z.of_nat (length arr - 1)).
    + rewrite at_nat. apply firstn_app_last. exact H.
    + destruct arr; [congruence | cbn [length]; lia].
  - intros ->. split; reflexivity.
Qed.

Lemma initial_last_witness :
  initial [VNum 1; VNum 2; VNum 3] ++ [last [VNum 1; VNum 2; VNum 3]]
  = [VNum 1; VNum 2; VNum 3].
Proof.
  refine (proj1 (initial_last [VNum 1; VNum 2; VNum 3]) _). discriminate.
Defined.

(** X6. [nthElement(arr, n)] is the element at index [n] for
    [0 <= n < arr.length] and [undefined] for [n >= arr.length]; a
    negative [n] counts from the end; and below [-arr.length] the slice is
    clamped to the whole array, so the result is the first element, not
    [undefined]. *)
Theorem nthElement_cases (arr : list value) (n : option Z) :
  (0 <= or_default 0 n ->
     nthElement arr n = nth (Z.to_nat (or_default 0 n)) arr VUndefined)
  /\ (Z.of_nat (length arr) <= or_default 0 n -> nthElement arr n = VUndefined)
  /\ (- Z.of_nat (length arr) <= or_default 0 n < 0 ->
     nthElement arr n =
     nth (Z.to_nat (Z.of_nat (length arr) + or_default 0 n)) arr VUndefined)
  /\ (or_default 0 n < - Z.of_nat (length arr) -> nthElement arr n = head arr).
Proof.
  unfold nthElement, head. set (k := or_default 0 n).
  assert (Hpos : 0 <= k ->
                 at_ (if 0 <? k then slice arr k (k + 1) else slice_from arr k) 0 =
                 nth (Z.to_nat k) arr VUndefined).
  { intro H. destruct (Z.ltb_spec 0 k) as [Hk | Hk].
    - replace k with (Z.of_nat (Z.to_nat k)) at 1 2 by lia.
      replace (Z.of_nat (Z.to_nat k) + 1) with (Z.of_nat (S (Z.to_nat k))) by lia.
      rewrite slice_nat. rewrite (at_nat _ 0).
      replace (S (Z.to_nat k) - Z.to_nat k)%nat with 1%nat by lia.
      rewrite nth_firstn. cbn [Nat.ltb Nat.leb]. rewrite nth_skipn. f_equal. lia.
    - assert (k = 0) by lia. rewrite H0. unfold slice_from.
      rewrite (slice_nat arr 0). rewrite skipn_0, firstn_all2 by lia.
      reflexivity. }
  assert (Hneg : k < 0 ->
                 at_ (if 0 <? k then slice arr k (k + 1) else slice_from arr k) 0 =
                 nth (length arr - Z.to_nat (- k)) arr VUndefined).
  { intro H. destruct (Z.ltb_spec 0 k) as [Hk | _]; [lia |].
    unfold slice_from. replace k with (- Z.of_nat (Z.to_nat (- k))) at 1 by lia.
    rewrite slice_from_end_minus by lia. rewrite (at_nat _ 0).
    rewrite nth_skipn. f_equal. lia. }
  repeat split.
  - exact Hpos.
  - intro H. rewrite Hpos by lia. apply nth_overflow. lia.
  - intros [H1 H2]. rewrite (Hneg H2). f_equal. lia.
  - intro H. rewrite Hneg by lia. rewrite (at_nat _ 0). f_equal. lia.
Qed.

Lemma nthElement_cases_witness :
  nthElement [VStr "a"; VStr "b"; VStr "c"] (Some (-5)) = VStr "a".
Proof.
  refine (proj2 (proj2 (proj2 (nthElement_cases [VStr "a"; VStr "b"; VStr "c"]
                                                 (Some (-5))))) _).
  cbn. lia.
Defined.

(** *** Chunks *)

Lemma nth_map_seq {B} (f : nat -> B) (n i : nat) (d : B) :
  (i < n)%nat -> nth i (map f (seq 0 n)) d = f i.
Proof.
  intro H. rewrite (nth_indep _ d (f 0%nat)) by (rewrite length_map, length_seq; exact H).
  rewrite map_nth, seq_nth by exact H. reflexivity.
Qed.









(** *** Every nth element *)









(** *** Ranges *)

(** X9. For safe integers [end] and [start] (at most 2^53 - 1 in size),
    [initializeArrayWithRange(end, start)] holds the integers from [start]
    to [end] in increasing order, each once: [end + 1 - start] of them,
    and none at all when [end < start]; when that makes more than
    2^32 - 1 elements there is a RangeError and no array. *)
Theorem initializeArrayWithRange_spec (end_ : Z) (start : option Z) :
  safe_integer end_ -> safe_integer (or_default 0 start) ->
  (end_ + 1 - or_default 0 start <= max_array_length ->
   exists range,
     initializeArrayWithRange end_ start = Some range
     /\ Z.of_nat (length range) = Z.max 0 (end_ + 1 - or_default 0 start)
     /\ (forall i, (i < length range)%nat ->
           nth i range VUndefined = VNum (or_default 0 start + Z.of_nat i))
     /\ (forall v, In v range <->
                   exists k, v = VNum k /\ or_default 0 start <= k <= end_))
  /\ (end_ < or_default 0 start -> initializeArrayWithRange end_ start = Some [])
  /\ (max_array_length < end_ + 1 - or_default 0 start ->
      initializeArrayWithRange end_ start = None).
Proof.
  intros _ _.
  unfold initializeArrayWithRange. set (s := or_default 0 start).
  split; [| split].
  - intro H. apply Z.leb_le in H. rewrite H. eexists. split; [reflexivity |].
    split; [| split].
    + rewrite length_map, length_seq. lia.
    + intros i Hi. rewrite length_map, length_seq in Hi.
      rewrite nth_map_seq by exact Hi. f_equal. lia.
    + intro v. split.
      * intro Hin. apply in_map_iff in Hin. destruct Hin as [i [<- Hi]].
        apply in_seq in Hi. exists (Z.of_nat i + s). split; [reflexivity | lia].
      * intros [k [-> Hk]]. apply in_map_iff. exists (Z.to_nat (k - s)). split.
        -- f_equal. lia.
        -- apply in_seq. lia.
  - intro H. unfold max_array_length.
    destruct (Z.leb_spec (end_ + 1 - s) 4294967295) as [_ | Hgt]; [| lia].
    replace (Z.to_nat (end_ + 1 - s)) with 0%nat by lia. reflexivity.
  - intro H. apply Z.leb_gt in H. rewrite H. reflexivity.
Qed.

Lemma initializeArrayWithRange_spec_witness :
  initializeArrayWithRange 2 (Some 3) = Some []
  /\ initializeArrayWithRange 4294967295 None = None.
Proof.
  split.
  - refine (proj1 (proj2 (initializeArrayWithRange_spec 2 (Some 3) _ _)) _);
      unfold safe_integer; cbn; lia.
  - refine (proj2 (proj2 (initializeArrayWithRange_spec 4294967295 None _ _)) _);
      unfold safe_integer, max_array_length; cbn; lia.
Defined.

Example initializeArrayWithRange_5 :
  initializeArrayWithRange 5 None =
  Some [VNum 0; VNum 1; VNum 2; VNum 3; VNum 4; VNum 5]
  /\ initializeArrayWithRange 5 (Some 3) = Some [VNum 3; VNum 4; VNum 5].
Proof. split; reflexivity. Qed.

(** *** zip *)

Lemma max_length_bound (lengths : list nat) :
  Forall (fun n => (n <= max_length lengths)%nat) lengths.
Proof.
  induction lengths as [| n rest IH]; constructor;
    change (max_length (n :: rest)) with (Nat.max n (max_length rest)).
  - lia.
  - eapply Forall_impl; [| exact IH]. cbv beta. intros m Hm. lia.
Qed.

Lemma max_length_same (lengths : list nat) (n : nat) :
  lengths <> [] -> Forall (fun m => m = n) lengths -> max_length lengths = n.
Proof.
  intros Hne Hall. induction Hall as [| m rest Hm Hrest IH]; [congruence |].
  subst m. destruct rest as [| m' rest'].
  - cbn. lia.
  - change (max_length (n :: m' :: rest'))
      with (Nat.max n (max_length (m' :: rest'))).
    rewrite IH by discriminate. lia.
Qed.

Lemma zip_length (arrays : list (list value)) :
  length (zip arrays) = max_length (map (fun x => length x) arrays).
Proof. unfold zip. rewrite length_map, length_seq. reflexivity. Qed.

Lemma zip_row_length (arrays : list (list value)) :
  Forall (fun row => length row = length arrays) (zip arrays).
Proof.
  unfold zip. apply Forall_forall. intros row Hrow.
  apply in_map_iff in Hrow. destruct Hrow as [i [<- _]].
  rewrite length_map, length_seq. reflexivity.
Qed.

Lemma zip_entry (arrays : list (list value)) (i k : nat) :
  (i < length (zip arrays))%nat -> (k < length arrays)%nat ->
  nth k (nth i (zip arrays) []) VUndefined = nth i (nth k arrays []) VUndefined.
Proof.
  intros Hi Hk. rewrite zip_length in Hi. unfold zip.
  rewrite nth_map_seq by exact Hi. rewrite nth_map_seq by exact Hk. reflexivity.
Qed.

(** X10. [zip(...arrays)] has as many rows as the longest array has
    elements, none when there are no arrays; every row has one entry per
    array; entry [k] of row [i] is element [i] of array [k], and
    [undefined] where that array is too short. *)
Theorem zip_shape (arrays : list (list value)) :
  length (zip arrays) = max_length (map (fun x => length x) arrays)
  /\ Forall (fun a => (length a <= length (zip arrays))%nat) arrays
  /\ Forall (fun row => length row = length arrays) (zip arrays)
  /\ (forall i k, (i < length (zip arrays))%nat -> (k < length arrays)%nat ->
        nth k (nth i (zip arrays) []) VUndefined =
        nth i (nth k arrays []) VUndefined)
  /\ (forall i k, (i < length (zip arrays))%nat -> (k < length arrays)%nat ->
        (length (nth k arrays []) <= i)%nat ->
        nth k (nth i (zip arrays) []) VUndefined = VUndefined)
  /\ zip [] = [].
Proof.
  split; [apply zip_length |]. split; [| split; [| split; [| split]]].
  - rewrite zip_length.
    pose proof (max_length_bound (map (fun x : list value => length x) arrays)) as H.
    rewrite Forall_map in H. exact H.
  - apply zip_row_length.
  - apply zip_entry.
  - intros i k Hi Hk Hshort. rewrite zip_entry by assumption.
    apply nth_overflow. exact Hshort.
  - reflexivity.
Qed.

Lemma zip_shape_witness :
  zip [[VStr "a"]; [VNum 1; VNum 2]; [VBool true; VBool false]] =
  [[VStr "a"; VNum 1; VBool true]; [VUndefined; VNum 2; VBool false]]
  /\ nth 0 (nth 1 (zip [[VStr "a"]; [VNum 1; VNum 2]; [VBool true; VBool false]]) [])
         VUndefined = VUndefined.
Proof.
  split; [reflexivity |].
  refine (proj1 (proj2 (proj2 (proj2 (proj2
            (zip_shape [[VStr "a"]; [VNum 1; VNum 2]; [VBool true; VBool false]])))))
            1%nat 0%nat _ _ _); cbn; lia.
Defined.

(** X11. On arrays that all have the same length, at least one array of
    at least one element, [zip] is its own inverse:
    [zip(...zip(...arrays))] gives the arrays back. *)
Theorem zip_zip (arrays : list (list value)) (n : nat) :
  arrays <> [] -> (1 <= n)%nat -> Forall (fun a => length a = n) arrays ->
  zip (zip arrays) = arrays.
Proof.
  intros Hne Hn Hall.
  assert (Hmax : max_length (map (fun x : list value => length x) arrays) = n).
  { apply max_length_same.
    - destruct arrays; [congruence | discriminate].
    - rewrite Forall_map. exact Hall. }
  assert (Hrows : length (zip arrays) = n).
  { unfold zip. rewrite length_map, length_seq. exact Hmax. }
  assert (Hmax' : max_length (map (fun x : list value => length x) (zip arrays)) =
                  length arrays).
  { apply max_length_same.
    - destruct (zip arrays); [cbn in Hrows; lia | discriminate].
    - rewrite Forall_map. apply zip_row_length. }
  apply nth_ext with (d := []) (d' := []).
  - unfold zip at 1. rewrite length_map, length_seq. exact Hmax'.
  - intros k Hk. unfold zip at 1 in Hk. rewrite length_map, length_seq, Hmax' in Hk.
    unfold zip at 1. rewrite Hmax'. rewrite nth_map_seq by exact Hk.
    rewrite Hrows.
    assert (Hk' : length (nth k arrays []) = n).
    { apply (proj1 (Forall_forall _ _) Hall). apply nth_In. exact Hk. }
    apply nth_ext with (d := VUndefined) (d' := VUndefined).
    + rewrite length_map, length_seq. symmetry. exact Hk'.
    + intros i Hi. rewrite length_map, length_seq in Hi.
      rewrite nth_map_seq by exact Hi.
      apply zip_entry; [lia | exact Hk].
Qed.

Lemma zip_zip_witness :
  zip (zip [[VStr "a"; VStr "b"]; [VNum 1; VNum 2]; [VBool true; VBool false]]) =
  [[VStr "a"; VStr "b"]; [VNum 1; VNum 2]; [VBool true; VBool false]].
Proof.
  apply (zip_zip _ 2).
  - discriminate.
  - lia.
  - repeat constructor.
Defined.

(** *** Sets of values *)

Lemma same_value_zero_eq (a b : value) : same_value_zero a b = true <-> a = b.
Proof.
  unfold same_value_zero. destruct (value_eq_dec a b); split; congruence.
Qed.

Lemma Set_has_In (s : list value) (x : value) : Set_has s x = true <-> In x s.
Proof.
  unfold Set_has. rewrite existsb_exists. split.
  - intros [y [Hy E]]. apply same_value_zero_eq in E. subst y. exact Hy.
  - intro H. exists x. split; [exact H | apply same_value_zero_eq; reflexivity].
Qed.

Lemma includes_In (arr : list value) (x : value) : includes arr x = true <-> In x arr.
Proof. exact (Set_has_In arr x). Qed.

Lemma Set_has_app (s t : list value) (x : value) :
  Set_has (s ++ t) x = Set_has s x || Set_has t x.
Proof. unfold Set_has. apply existsb_app. Qed.

Lemma Set_add_In (s : list value) (x y : value) :
  In y (Set_add s x) <-> In y s \/ y = x.
Proof.
  unfold Set_add. destruct (Set_has s x) eqn:E.
  - apply Set_has_In in E. split; [auto | intros [H | ->]; assumption].
  - rewrite in_app_iff. cbn. split; intros [H | H]; auto.
    + destruct H as [<- | []]. auto.
Qed.

Lemma Set_add_NoDup (s : list value) (x : value) : NoDup s -> NoDup (Set_add s x).
Proof.
  intro H. unfold Set_add. destruct (Set_has s x) eqn:E; [exact H |].
  assert (Hx : ~ In x s).
  { intro Hin. apply Set_has_In in Hin. congruence. }
  clear E. induction H as [| y s Hy Hs IH]; cbn [app].
  - constructor; [intros [] | constructor].
  - constructor.
    + rewrite in_app_iff. cbn. intros [Hin | [-> | []]]; [auto |]. apply Hx. left. reflexivity.
    + apply IH. intro Hin. apply Hx. right. exact Hin.
Qed.

Lemma fold_Set_add_In (l : list value) : forall s y,
  In y (fold_left Set_add l s) <-> In y s \/ In y l.
Proof.
  induction l as [| x l IH]; intros s y; cbn [fold_left In].
  - tauto.
  - rewrite IH, Set_add_In. intuition congruence.
Qed.

Lemma fold_Set_add_NoDup (l : list value) : forall s,
  NoDup s -> NoDup (fold_left Set_add l s).
Proof.
  induction l as [| x l IH]; intros s H; cbn [fold_left]; [exact H |].
  apply IH, Set_add_NoDup, H.
Qed.

Lemma new_Set_In (l : list value) (y : value) : In y (new_Set l) <-> In y l.
Proof. unfold new_Set. rewrite fold_Set_add_In. cbn. tauto. Qed.

Lemma new_Set_NoDup (l : list value) : NoDup (new_Set l).
Proof. apply fold_Set_add_NoDup. constructor. Qed.

Lemma Set_has_new_Set (l : list value) (x : value) :
  Set_has (new_Set l) x = includes l x.
Proof.
  destruct (includes l x) eqn:E.
  - apply Set_has_In, new_Set_In, includes_In, E.
  - destruct (Set_has (new_Set l) x) eqn:E'; [| reflexivity].
    apply (proj1 (Set_has_In _ _)) in E'. apply (proj1 (new_Set_In _ _)) in E'.
    apply (proj2 (includes_In _ _)) in E'. congruence.
Qed.

Lemma filter_twice {A} (f g : A -> bool) (l : list A) :
  filter f (filter g l) = filter (fun x => g x && f x) l.
Proof.
  induction l as [| x l IH]; [reflexivity |].
  cbn [filter]. destruct (g x); cbn [andb filter]; rewrite IH; reflexivity.
Qed.

(** Adding to a set the elements of a list adds, in order, the first
    occurrences of those that the set does not hold. *)
Lemma fold_Set_add_split (n : nat) : forall l s,
  (length l <= n)%nat ->
  fold_left Set_add l s = s ++ new_Set (filter (fun x => negb (Set_has s x)) l).
Proof.
  induction n as [| n IH]; intros l s Hlen.
  - destruct l; [| cbn in Hlen; lia]. cbn. symmetry. apply app_nil_r.
  - destruct l as [| x l]; [cbn; symmetry; apply app_nil_r |].
    cbn [length] in Hlen. cbn [fold_left filter]. unfold Set_add at 2.
    destruct (Set_has s x) eqn:E; cbn [negb].
    + apply IH. lia.
    + rewrite IH by lia. unfold new_Set at 2. cbn [fold_left].
      change (Set_add [] x) with [x].
      rewrite (IH (filter (fun y => negb (Set_has s y)) l) [x]).
      * rewrite <- app_assoc. do 2 f_equal. f_equal.
        rewrite filter_twice. apply filter_ext. intro y.
        rewrite Set_has_app, negb_orb. reflexivity.
      * pose proof (filter_length_le (fun y => negb (Set_has s y)) l). lia.
Qed.

Lemma length_filter_negb {A} (f : A -> bool) (l : list A) :
  (length (filter f l) + length (filter (fun x => negb (f x)) l) = length l)%nat.
Proof.
  induction l as [| x l IH]; [reflexivity |].
  cbn [filter]. destruct (f x); cbn [negb length]; lia.
Qed.

Lemma difference_In (a b : list value) (x : value) :
  In x (difference a b) <-> In x a /\ ~ In x b.
Proof.
  unfold difference. rewrite filter_In, negb_true_iff.
  pose proof (Set_has_In (new_Set b) x) as H. rewrite new_Set_In in H.
  destruct (Set_has (new_Set b) x); intuition congruence.
Qed.

(** X12. On arrays of primitive values, [difference(a, b)] keeps the
    elements of [a] that are not in [b], and [intersection(a, b)] those
    that are, both in the order of [a] and with the repetitions of [a]:
    between them they share out [a]. *)
Theorem difference_intersection (a b : list value) :
  primitives a = true -> primitives b = true ->
  (forall x, In x (difference a b) <-> In x a /\ ~ In x b)
  /\ (forall x, In x (intersection a b) <-> In x a /\ In x b)
  /\ (length (difference a b) + length (intersection a b) = length a)%nat
  /\ difference a [] = a
  /\ intersection a [] = [].
Proof.
  intros _ _.
  assert (Hhas : forall x, Set_has (new_Set b) x = true <-> In x b).
  { intro x. rewrite Set_has_In. apply new_Set_In. }
  unfold difference, intersection. split; [| split; [| split; [| split]]].
  - intro x. rewrite filter_In, negb_true_iff, <- Hhas.
    destruct (Set_has (new_Set b) x); intuition congruence.
  - intro x. rewrite filter_In, Hhas. tauto.
  - rewrite Nat.add_comm. apply length_filter_negb.
  - cbn. induction a as [| x a IH]; [reflexivity |]. cbn. f_equal. exact IH.
  - cbn. induction a as [| x a IH]; [reflexivity |]. cbn. exact IH.
Qed.

Lemma difference_intersection_witness :
  In (VNum 3) (difference [VNum 1; VNum 2; VNum 3] [VNum 1; VNum 2; VNum 4])
  /\ In (VNum 2) (intersection [VNum 1; VNum 2; VNum 3] [VNum 1; VNum 2; VNum 4]).
Proof.
  split.
  - refine (proj2 (proj1 (difference_intersection
                            [VNum 1; VNum 2; VNum 3] [VNum 1; VNum 2; VNum 4]
                            eq_refl eq_refl) (VNum 3)) _).
    split; [cbn; tauto |].
    cbn. intro H. repeat (destruct H as [H | H]; try discriminate). exact H.
  - refine (proj2 (proj1 (proj2 (difference_intersection
                            [VNum 1; VNum 2; VNum 3] [VNum 1; VNum 2; VNum 4]
                            eq_refl eq_refl)) (VNum 2)) _).
    split; cbn; tauto.
Defined.

(** X13. The functions built on [includes] agree with those built on a
    [Set]: [similarity] is [intersection], [without] is [difference], and
    [pullAtValue(arr, pullArr)] returns [similarity(arr, pullArr)] and
    leaves [without(arr, ...pullArr)] in the array. *)
Theorem includes_agrees_with_Set (arr values : list value) :
  similarity arr values = intersection arr values
  /\ without arr values = difference arr values
  /\ pullAtValue arr values = (similarity arr values, without arr values).
Proof.
  unfold similarity, intersection, without, difference, pullAtValue.
  split; [| split].
  - apply filter_ext. intro x. symmetry. apply Set_has_new_Set.
  - apply filter_ext. intro x. rewrite Set_has_new_Set. reflexivity.
  - f_equal.
    assert (H : forall l acc,
               fold_left (fun removed v => if includes values v then removed ++ [v]
                                           else removed) l acc =
               acc ++ filter (fun v => includes values v) l).
    { induction l as [| x l IH]; intro acc; cbn [fold_left filter].
      - symmetry. apply app_nil_r.
      - rewrite IH. destruct (includes values x); [| reflexivity].
        rewrite <- app_assoc. reflexivity. }
    apply H.
Qed.

(** X14. On an array of primitive values, [distinctValuesOfArray(arr)]
    holds the values of [arr] once each ([NaN] too), every value at the
    place of its first occurrence; it changes nothing in an array without
    repetitions, and so nothing when applied twice. *)
Theorem distinctValuesOfArray_spec (arr : list value) :
  primitives arr = true ->
  NoDup (distinctValuesOfArray arr)
  /\ (forall x, In x (distinctValuesOfArray arr) <-> In x arr)
  /\ (forall x rest, arr = x :: rest ->
        distinctValuesOfArray arr =
        x :: distinctValuesOfArray (without rest [x]))
  /\ (NoDup arr -> distinctValuesOfArray arr = arr)
  /\ distinctValuesOfArray (distinctValuesOfArray arr) = distinctValuesOfArray arr.
Proof.
  intros _.
  assert (Hcons : forall x rest,
             distinctValuesOfArray (x :: rest) =
             x :: distinctValuesOfArray (without rest [x])).
  { intros x rest. unfold distinctValuesOfArray, new_Set at 1. cbn [fold_left].
    change (Set_add [] x) with [x].
    rewrite (fold_Set_add_split (length rest)) by lia. reflexivity. }
  assert (Hnodup : forall l, NoDup l -> distinctValuesOfArray l = l).
  { intro l. remember (length l) as n eqn:Hn. revert l Hn.
    induction n as [| n IH]; intros l Hn Hl.
    - destruct l; [reflexivity | discriminate].
    - destruct l as [| x l]; [discriminate |]. rewrite Hcons.
      inversion Hl as [| ? ? Hx Hl']; subst.
      assert (E : without l [x] = l).
      { unfold without. clear - Hx. induction l as [| y l IH]; [reflexivity |].
        cbn [filter includes existsb].
        destruct (same_value_zero y x) eqn:Eyx.
        - apply same_value_zero_eq in Eyx. subst y. exfalso. apply Hx. left. reflexivity.
        - cbn [orb negb]. f_equal. apply IH. intro H. apply Hx. right. exact H. }
      rewrite E. f_equal. apply IH; [cbn in Hn; lia | exact Hl']. }
  repeat split.
  - apply new_Set_NoDup.
  - apply new_Set_In.
  - apply new_Set_In.
  - intros x rest ->. apply Hcons.
  - apply Hnodup.
  - apply Hnodup, new_Set_NoDup.
Qed.

Lemma distinctValuesOfArray_spec_witness :
  distinctValuesOfArray [VNum 1; VNum 2; VNaN] = [VNum 1; VNum 2; VNaN].
Proof.
  refine (proj1 (proj2 (proj2 (proj2
            (distinctValuesOfArray_spec [VNum 1; VNum 2; VNaN] eq_refl)))) _).
  repeat constructor; cbn; intros H;
    repeat (destruct H as [H | H]; try discriminate); exact H.
Defined.

(** X15. On arrays of primitive values, [union(a, b)] holds every value
    of [a] or of [b] once: first the distinct values of [a], then the
    distinct values of [b] that are not in [a]. *)
Theorem union_spec (a b : list value) :
  primitives a = true -> primitives b = true ->
  NoDup (union a b)
  /\ (forall x, In x (union a b) <-> In x a \/ In x b)
  /\ union a b = distinctValuesOfArray a ++ distinctValuesOfArray (difference b a)
  /\ union a [] = distinctValuesOfArray a.
Proof.
  intros _ _.
  unfold union. repeat split.
  - apply new_Set_NoDup.
  - intro H. apply new_Set_In, in_app_iff in H. exact H.
  - intro H. apply new_Set_In, in_app_iff. exact H.
  - unfold new_Set at 1. rewrite fold_left_app. fold (new_Set a).
    rewrite (fold_Set_add_split (length b)) by lia. reflexivity.
  - rewrite app_nil_r. reflexivity.
Qed.

Lemma union_spec_witness :
  union [VNum 1; VNum 2; VNum 3] [VNum 4; VNum 3; VNum 2] =
  [VNum 1; VNum 2; VNum 3; VNum 4].
Proof.
  rewrite (proj1 (proj2 (proj2 (union_spec [VNum 1; VNum 2; VNum 3]
                                           [VNum 4; VNum 3; VNum 2]
                                           eq_refl eq_refl)))).
  reflexivity.
Defined.

(** X16. On arrays of primitive values, [symmetricDifference(a, b)] is
    [difference(a, b)] followed by [difference(b, a)]: it holds the values
    found in exactly one of the arrays, keeps their repetitions, and is
    empty for an array and itself. *)
Theorem symmetricDifference_spec (a b : list value) :
  primitives a = true -> primitives b = true ->
  symmetricDifference a b = difference a b ++ difference b a
  /\ (forall x, In x (symmetricDifference a b) <->
                (In x a /\ ~ In x b) \/ (In x b /\ ~ In x a))
  /\ (forall x, In x (symmetricDifference a b) <-> In x (symmetricDifference b a))
  /\ symmetricDifference a a = [].
Proof.
  intros _ _.
  assert (Hin : forall a b x, In x (symmetricDifference a b) <->
                  (In x a /\ ~ In x b) \/ (In x b /\ ~ In x a)).
  { intros a' b' x. change (symmetricDifference a' b')
      with (difference a' b' ++ difference b' a').
    rewrite in_app_iff.
    rewrite !difference_In. tauto. }
  split; [reflexivity |]. split; [apply Hin |]. split.
  - intro x. rewrite !Hin. tauto.
  - destruct (symmetricDifference a a) as [| x l] eqn:E; [reflexivity |].
    assert (H : In x (symmetricDifference a a)) by (rewrite E; left; reflexivity).
    apply Hin in H. tauto.
Qed.

Lemma symmetricDifference_spec_witness :
  symmetricDifference [VNum 1; VNum 2; VNum 3] [VNum 1; VNum 2; VNum 4] =
  [VNum 3; VNum 4].
Proof.
  rewrite (proj1 (symmetricDifference_spec [VNum 1; VNum 2; VNum 3]
                                           [VNum 1; VNum 2; VNum 4]
                                           eq_refl eq_refl)).
  reflexivity.
Defined.

(** *** Occurrences *)

Lemma strict_equals_eq (a b : value) : strict_equals a b = true -> a = b.
Proof.
  unfold strict_equals. destruct a, b; try discriminate; apply same_value_zero_eq.
Qed.

Lemma strict_equals_refl (a : value) : a <> VNaN -> strict_equals a a = true.
Proof.
  intro H. unfold strict_equals.
  destruct a; try congruence; apply same_value_zero_eq; reflexivity.
Qed.

Lemma strict_equals_NaN (a : value) : strict_equals a VNaN = false.
Proof. destruct a; reflexivity. Qed.

Lemma count_shift (x : value) (l : list value) : forall a,
  fold_left (fun a v => if strict_equals v x then a + 1 else a + 0) l a =
  a + countOccurrences l x.
Proof.
  unfold countOccurrences, reduce.
  induction l as [| y l IH]; intro a; cbn [fold_left]; [lia |].
  rewrite IH, (IH (if strict_equals y x then 0 + 1 else 0 + 0)).
  destruct (strict_equals y x); lia.
Qed.

Lemma countOccurrences_cons (x y : value) (l : list value) :
  countOccurrences (y :: l) x =
  (if strict_equals y x then 1 else 0) + countOccurrences l x.
Proof.
  unfold countOccurrences at 1, reduce. cbn [fold_left]. rewrite count_shift.
  destruct (strict_equals y x); lia.
Qed.

Lemma countOccurrences_nonneg (x : value) (l : list value) :
  0 <= countOccurrences l x <= Z.of_nat (length l).
Proof.
  induction l as [| y l IH]; [cbn; lia |].
  rewrite countOccurrences_cons. cbn [length]. destruct (strict_equals y x); lia.
Qed.

Lemma countOccurrences_In (x : value) (l : list value) :
  x <> VNaN -> (1 <= countOccurrences l x <-> In x l).
Proof.
  intro Hx. induction l as [| y l IH].
  - cbn. split; [lia | tauto].
  - rewrite countOccurrences_cons. pose proof (countOccurrences_nonneg x l) as Hc.
    cbn [In]. destruct (strict_equals y x) eqn:E.
    + apply strict_equals_eq in E. split; [auto | lia].
    + split.
      * intro H. right. apply IH. lia.
      * intros [-> | H]; [rewrite strict_equals_refl in E by exact Hx; discriminate |].
        apply IH in H. lia.
Qed.

(** Where the first and the last occurrence are, by the number of
    occurrences. *)
Lemma index_by_count (x : value) (l : list value) : forall i,
  0 <= i ->
  (countOccurrences l x = 0 /\ indexOf_from i l x = -1 /\ lastIndexOf_from i l x = -1)
  \/ (countOccurrences l x = 1 /\ i <= indexOf_from i l x
      /\ indexOf_from i l x = lastIndexOf_from i l x)
  \/ (2 <= countOccurrences l x /\ i <= indexOf_from i l x
      /\ indexOf_from i l x < lastIndexOf_from i l x).
Proof.
  induction l as [| y l IH]; intros i Hi.
  - left. repeat split.
  - rewrite countOccurrences_cons. cbn [indexOf_from lastIndexOf_from].
    destruct (IH (i + 1) ltac:(lia)) as [[Hc [Hf Hl]] | [[Hc [Hf Hl]] | [Hc [Hf Hl]]]];
      destruct (strict_equals y x);
      destruct (Z.eqb_spec (lastIndexOf_from (i + 1) l x) (-1)) as [E | E];
      first [lia | left; lia | right; left; lia | right; right; lia].
Qed.



(** X18. For a primitive [value], [countOccurrences(arr, value)] lies
    between 0 and the length, is 0 exactly when [indexOf] gives -1, adds
    up over concatenation, is at least 1 exactly when the value is in the
    array and is not [NaN], and is always 0 for [NaN], which [===] finds
    equal to nothing. *)
Theorem countOccurrences_spec (a b : list value) (x : value) :
  primitive x = true ->
  0 <= countOccurrences a x <= Z.of_nat (length a)
  /\ (countOccurrences a x = 0 <-> indexOf a x = -1)
  /\ countOccurrences (a ++ b) x = countOccurrences a x + countOccurrences b x
  /\ countOccurrences a VNaN = 0
  /\ (x <> VNaN -> (1 <= countOccurrences a x <-> In x a)).
Proof.
  intros _.
  split; [apply countOccurrences_nonneg |]. split; [| split; [| split]].
  - unfold indexOf.
    destruct (index_by_count x a 0 ltac:(lia))
      as [[Hc [Hf Hl]] | [[Hc [Hf Hl]] | [Hc [Hf Hl]]]]; lia.
  - unfold countOccurrences at 1, reduce. rewrite fold_left_app.
    fold (reduce (fun a v => if strict_equals v x then a + 1 else a + 0) a 0).
    fold (countOccurrences a x). apply count_shift.
  - induction a as [| y l IH]; [reflexivity |].
    rewrite countOccurrences_cons, strict_equals_NaN. exact IH.
  - apply countOccurrences_In.
Qed.

Lemma countOccurrences_spec_witness :
  countOccurrences [VNum 1; VNum 1; VNum 2; VNum 1; VNum 2; VNum 3] (VNum 1) = 3
  /\ In (VNum 1) [VNum 1; VNum 1; VNum 2; VNum 1; VNum 2; VNum 3].
Proof.
  split; [reflexivity |].
  refine (proj1 (proj2 (proj2 (proj2 (proj2
            (countOccurrences_spec [VNum 1; VNum 1; VNum 2; VNum 1; VNum 2; VNum 3] []
                                   (VNum 1) eq_refl)))) _) _).
  - discriminate.
  - cbn. lia.
Defined.

(** *** Dropping and comparing *)

(** X19. [dropElements(arr, func)] returns what is left of the array once
    its longest beginning on which [func] is falsy is taken off: the
    result is empty or starts with an element on which [func] is truthy,
    and nothing after that element is dropped. *)
Theorem dropElements_suffix (arr : list value) (func : value -> value) :
  exists dropped,
    arr = dropped ++ dropElements arr func
    /\ Forall (fun x => truthy (func x) = false) dropped
    /\ match dropElements arr func with
       | [] => True
       | x :: _ => truthy (func x) = true
       end
    /\ dropElements (dropElements arr func) func = dropElements arr func.
Proof.
  induction arr as [| x rest IH].
  - exists []. repeat split. constructor.
  - cbn [dropElements]. destruct (truthy (func x)) eqn:E.
    + exists []. repeat split; [constructor | exact E |].
      cbn [dropElements]. rewrite E. reflexivity.
    + destruct IH as [dropped [Harr [Hall [Hhead Hidem]]]].
      exists (x :: dropped). repeat split.
      * cbn [app]. f_equal. exact Harr.
      * constructor; assumption.
      * exact Hhead.
      * exact Hidem.
Qed.

Lemma find_none (f : value -> value) (val : list value) :
  (forall b, In b val -> truthy (f b) = false) -> find_ f val = VUndefined.
Proof.
  induction val as [| b val IH]; intro H; [reflexivity |].
  cbn [find_]. rewrite (H b (or_introl eq_refl)). apply IH.
  intros b' Hb'. apply H. right. exact Hb'.
Qed.

Lemma find_first (f : value -> value) (before after : list value) (b : value) :
  (forall b', In b' before -> truthy (f b') = false) ->
  truthy (f b) = true ->
  find_ f (before ++ b :: after) = b.
Proof.
  intros Hbefore Hb. induction before as [| b' before IH]; cbn [app find_].
  - rewrite Hb. reflexivity.
  - rewrite (Hbefore b' (or_introl eq_refl)). apply IH.
    intros b'' H. apply Hbefore. right. exact H.
Qed.

(** X20. [differenceWith(arr, val, comp)] keeps an element [a] for which
    no element of [val] matches, and drops [a] when the first element of
    [val] that matches is truthy; but a first match that is itself falsy
    ([0], the empty string, [null], ...) keeps [a], because the code tests
    the element [find] returns and not whether one was found. *)
Theorem differenceWith_spec (arr val : list value) (comp : value -> value -> value)
    (a : value) :
  (In a (differenceWith arr val comp) -> In a arr)
  /\ (In a arr -> (forall b, In b val -> truthy (comp a b) = false) ->
      In a (differenceWith arr val comp))
  /\ (forall before b after,
        val = before ++ b :: after ->
        (forall b', In b' before -> truthy (comp a b') = false) ->
        truthy (comp a b) = true ->
        (In a (differenceWith arr val comp) <-> In a arr /\ truthy b = false))
  /\ (Forall (fun b => truthy b = true) val ->
      (In a (differenceWith arr val comp) <->
       In a arr /\ forall b, In b val -> truthy (comp a b) = false)).
Proof.
  unfold differenceWith. split; [| split; [| split]].
  - intro H. apply filter_In in H. tauto.
  - intros Ha Hnone. apply filter_In. split; [exact Ha |].
    rewrite (find_none (fun b => comp a b)) by exact Hnone. reflexivity.
  - intros before b after -> Hbefore Hb.
    rewrite filter_In, (find_first (fun b => comp a b) before after b Hbefore Hb),
      negb_true_iff.
    reflexivity.
  - intro Hval. rewrite filter_In, negb_true_iff. split.
    + intros [Ha Hfind]. split; [exact Ha |]. intros b Hb.
      destruct (truthy (comp a b)) eqn:E; [| reflexivity].
      exfalso. clear Ha. induction val as [| b0 val IH]; [destruct Hb |].
      cbn [find_] in Hfind. inversion Hval as [| ? ? Hb0 Hval']; subst.
      destruct (truthy (comp a b0)) eqn:E0; [congruence |].
      destruct Hb as [-> | Hb]; [congruence |].
      exact (IH Hval' Hfind Hb).
    + intros [Ha Hnone]. split; [exact Ha |].
      rewrite (find_none (fun b => comp a b)) by exact Hnone. reflexivity.
Qed.

Lemma differenceWith_spec_witness :
  In (VNum 0) (differenceWith [VNum 0] [VNum 0]
                 (fun a b => VBool (same_value_zero a b))).
Proof.
  refine (proj2 (proj1 (proj2 (proj2 (differenceWith_spec [VNum 0] [VNum 0]
              (fun a b => VBool (same_value_zero a b)) (VNum 0))))
            [] (VNum 0) [] eq_refl _ eq_refl) _).
  - intros b' [].
  - split; [left; reflexivity | reflexivity].
Defined.

(** *** Functions that change their array *)

Lemma map_pushing_spec (pullArr : list value) (arr : list value) : forall i removed,
  fst (map_pushing pullArr i removed arr) =
    removed ++ filter_from (fun v i => includes pullArr (VNum i)) i arr
  /\ filter_from (fun v i => negb (includes pullArr (VNum i))) i
                 (snd (map_pushing pullArr i removed arr)) =
     filter_from (fun v i => negb (includes pullArr (VNum i))) i arr.
Proof.
  induction arr as [| v rest IH]; intros i removed; cbn [map_pushing filter_from].
  - split; [symmetry; apply app_nil_r | reflexivity].
  - destruct (includes pullArr (VNum i)) eqn:E.
    + destruct (IH (i + 1) (removed ++ [v])) as [H1 H2].
      destruct (map_pushing pullArr (i + 1) (removed ++ [v]) rest) as [r m].
      cbn [fst snd] in *. cbn [filter_from]. rewrite E. cbn [negb].
      split; [rewrite H1, <- app_assoc; reflexivity | exact H2].
    + destruct (IH (i + 1) removed) as [H1 H2].
      destruct (map_pushing pullArr (i + 1) removed rest) as [r m].
      cbn [fst snd] in *. cbn [filter_from]. rewrite E. cbn [negb].
      split; [exact H1 | f_equal; exact H2].
Qed.

Lemma filter_from_ext {A} (f g : A -> Z -> bool) (l : list A) : forall i,
  (forall x j, f x j = g x j) -> filter_from f i l = filter_from g i l.
Proof.
  induction l as [| x l IH]; intros i H; [reflexivity |].
  cbn [filter_from]. rewrite H, (IH (i + 1) H). reflexivity.
Qed.

Lemma length_filter_from_negb {A} (f : A -> Z -> bool) (l : list A) : forall i,
  (length (filter_from f i l) + length (filter_from (fun x j => negb (f x j)) i l)
   = length l)%nat.
Proof.
  induction l as [| x l IH]; intro i; [reflexivity |].
  cbn [filter_from]. specialize (IH (i + 1)).
  destruct (f x i); cbn [negb length]; lia.
Qed.

(** X21. [pullAtIndex(arr, pullArr)] returns the elements whose index is
    among [pullArr], in the order of the array, and leaves the others in
    the array, so nothing is lost; the lengths that [push] puts into the
    mapped array never reach the array; and only which indices [pullArr]
    names matters, not their order or repetition. *)
Theorem pullAtIndex_spec (arr pullArr : list value) :
  pullAtIndex arr pullArr =
    (filteri (fun v i => includes pullArr (VNum i)) arr,
     filteri (fun v i => negb (includes pullArr (VNum i))) arr)
  /\ (length (fst (pullAtIndex arr pullArr)) + length (snd (pullAtIndex arr pullArr))
      = length arr)%nat
  /\ (forall pullArr',
        (forall x, In x pullArr <-> In x pullArr') ->
        pullAtIndex arr pullArr' = pullAtIndex arr pullArr).
Proof.
  assert (H : forall p, pullAtIndex arr p =
            (filteri (fun v i => includes p (VNum i)) arr,
             filteri (fun v i => negb (includes p (VNum i))) arr)).
  { intro p. unfold pullAtIndex, filteri.
    destruct (map_pushing_spec p arr 0 []) as [H1 H2].
    destruct (map_pushing p 0 [] arr) as [r m]. cbn [fst snd] in *.
    rewrite H1, H2. reflexivity. }
  split; [apply H |]. split.
  - rewrite H. cbn [fst snd]. unfold filteri. apply length_filter_from_negb.
  - intros p' Hp. rewrite !H.
    assert (E : forall x, includes p' x = includes pullArr x).
    { intro x. destruct (includes pullArr x) eqn:E.
      - apply includes_In, Hp, includes_In, E.
      - destruct (includes p' x) eqn:E'; [| reflexivity].
        apply (proj1 (includes_In _ _)) in E'. apply Hp in E'.
        apply (proj2 (includes_In _ _)) in E'. congruence. }
    unfold filteri. f_equal; apply filter_from_ext; intros x j; rewrite E; reflexivity.
Qed.

Lemma pullAtIndex_spec_witness :
  pullAtIndex [VStr "a"; VStr "b"; VStr "c"; VStr "d"] [VNum 3; VNum 1; VNum 3] =
  ([VStr "b"; VStr "d"], [VStr "a"; VStr "c"]).
Proof.
  rewrite (proj2 (proj2 (pullAtIndex_spec [VStr "a"; VStr "b"; VStr "c"; VStr "d"]
                           [VNum 1; VNum 3])) [VNum 3; VNum 1; VNum 3]).
  - reflexivity.
  - intro x. cbn. tauto.
Defined.







(** A function that is truthy on [NaN]: [indexOf] does not find the
    [NaN], and [splice(-1, 1)] takes the last element away in its place. *)
Example remove_NaN :
  remove [VNaN; VNum 1]
         (fun v _ _ => VBool (same_value_zero v VNaN)) =
  ([VNaN], [VNaN]).
Proof. reflexivity. Qed.

(** *** Nested arrays *)

Lemma fold_concat1 (l : list item) : forall acc,
  fold_left concat1 l acc = acc ++ flat_map spread l.
Proof.
  induction l as [| v l IH]; intro acc; cbn [fold_left flat_map].
  - symmetry. apply app_nil_r.
  - rewrite IH. destruct v; cbn [concat1 spread]; rewrite <- app_assoc; reflexivity.
Qed.

Lemma flatten_spread (arr : list item) : flatten arr = flat_map spread arr.
Proof. unfold flatten, reduce. apply fold_concat1. Qed.

(** Induction on nested arrays. *)
Lemma item_nested_ind (P : item -> Prop) :
  (forall v, P (Atom v)) ->
  (forall elems, Forall P elems -> P (Arr elems)) ->
  forall v, P v.
Proof.
  intros Hatom Harr.
  fix IH 1. intros [v | elems].
  - apply Hatom.
  - apply Harr. induction elems as [| e elems IHelems]; constructor.
    + apply IH.
    + exact IHelems.
Qed.

Lemma deepFlatten_elem_leaves (v : item) :
  spread (deepFlatten_elem v) = map Atom (leaves v).
Proof.
  induction v as [x | elems IH] using item_nested_ind; [reflexivity |].
  cbn [deepFlatten_elem spread leaves]. rewrite fold_concat1. cbn [app].
  induction IH as [| e elems He _ IHelems]; [reflexivity |].
  cbn [map flat_map]. rewrite map_app, He, IHelems. reflexivity.
Qed.

Lemma deepFlatten_leaves (arr : list item) :
  deepFlatten arr = map Atom (flat_map leaves arr).
Proof.
  unfold deepFlatten. rewrite fold_concat1. cbn [app].
  induction arr as [| e arr IH]; [reflexivity |].
  cbn [map flat_map]. rewrite map_app, deepFlatten_elem_leaves, IH. reflexivity.
Qed.

Lemma flat_map_leaves_atoms (l : list value) : flat_map leaves (map Atom l) = l.
Proof. induction l as [| x l IH]; [reflexivity |]. cbn. f_equal. exact IH. Qed.

Lemma leaves_spread (arr : list item) :
  flat_map leaves (flat_map spread arr) = flat_map leaves arr.
Proof.
  induction arr as [| e arr IH]; [reflexivity |].
  cbn [flat_map]. rewrite flat_map_app, IH. f_equal.
  destruct e; cbn [spread leaves flat_map]; [apply app_nil_r | reflexivity].
Qed.



(** X24. [deepFlatten(arr)] is the list of the values at the leaves of
    the nested array, from left to right: it holds no array, leaves an
    array without arrays unchanged and so changes nothing when applied
    twice, and gives the same whether or not [flatten] was applied
    before. *)
Theorem deepFlatten_spec (arr : list item) :
  deepFlatten arr = map Atom (flat_map leaves arr)
  /\ flat (deepFlatten arr)
  /\ (flat arr -> deepFlatten arr = arr)
  /\ deepFlatten (deepFlatten arr) = deepFlatten arr
  /\ deepFlatten (flatten arr) = deepFlatten arr.
Proof.
  split; [apply deepFlatten_leaves |]. split; [| split; [| split]].
  - rewrite deepFlatten_leaves. unfold flat. apply Forall_forall. intros v Hv.
    apply in_map_iff in Hv. destruct Hv as [x [<- _]]. exists x. reflexivity.
  - intro H. rewrite deepFlatten_leaves.
    induction H as [| v l [x ->] _ IH]; [reflexivity |]. cbn. f_equal. exact IH.
  - rewrite !deepFlatten_leaves, flat_map_leaves_atoms. reflexivity.
  - rewrite !deepFlatten_leaves, flatten_spread, leaves_spread. reflexivity.
Qed.

Lemma deepFlatten_spec_witness :
  deepFlatten [Atom (VNum 1); Arr [Atom (VNum 2)];
               Arr [Arr [Atom (VNum 3)]; Atom (VNum 4)]; Atom (VNum 5)] =
  [Atom (VNum 1); Atom (VNum 2); Atom (VNum 3); Atom (VNum 4); Atom (VNum 5)]
  /\ deepFlatten [Atom (VNum 1); Atom (VNum 2)] = [Atom (VNum 1); Atom (VNum 2)].
Proof.
  split; [reflexivity |].
  refine (proj1 (proj2 (proj2 (deepFlatten_spec [Atom (VNum 1); Atom (VNum 2)]))) _).
  repeat constructor; eexists; reflexivity.
Defined.

(** *** pull *)

Lemma split_comma_nonempty (t : string) : split_comma t <> [].
Proof.
  destruct t as [| c t]; cbn [split_comma]; [discriminate |].
  destruct (Ascii.eqb c ","); [discriminate |].
  destruct (split_comma t); discriminate.
Qed.

(** No piece of a split holds a comma. *)
Lemma split_comma_pieces (t : string) :
  Forall (fun s => has_comma s = false) (split_comma t).
Proof.
  induction t as [| c t IH]; cbn [split_comma].
  - repeat constructor.
  - destruct (Ascii.eqb c ",") eqn:E.
    + constructor; [reflexivity | exact IH].
    + destruct (split_comma t) as [| p ps].
      * repeat constructor. cbn [has_comma]. rewrite E. reflexivity.
      * constructor.
        -- cbn [has_comma]. rewrite E. exact (Forall_inv IH).
        -- exact (Forall_inv_tail IH).
Qed.

Lemma split_comma_free (s : string) : has_comma s = false -> split_comma s = [s].
Proof.
  induction s as [| c s IH]; intro H; [reflexivity |].
  cbn [has_comma] in H. apply orb_false_iff in H. destruct H as [Hc Hs].
  cbn [split_comma]. rewrite Hc, (IH Hs). reflexivity.
Qed.

Lemma split_comma_app (s t : string) :
  has_comma s = false ->
  split_comma (s ++ String "," t) = s :: split_comma t.
Proof.
  induction s as [| c s IH]; intro H.
  - reflexivity.
  - cbn [has_comma] in H. apply orb_false_iff in H. destruct H as [Hc Hs].
    cbn [String.append split_comma]. rewrite Hc, (IH Hs). reflexivity.
Qed.

(** Joining strings without commas and splitting again gives them back. *)
Lemma split_comma_join (strs : list string) :
  strs <> [] -> Forall (fun s => has_comma s = false) strs ->
  split_comma (join strs) = strs.
Proof.
  intros Hne Hall. induction Hall as [| s rest Hs Hrest IH]; [congruence |].
  destruct rest as [| s' rest'].
  - apply split_comma_free, Hs.
  - change (join (s :: s' :: rest')) with (s ++ String "," (join (s' :: rest')))%string.
    rewrite split_comma_app by exact Hs. f_equal. apply IH. discriminate.
Qed.

Lemma includes_strings (strs : list string) (v : value) :
  includes (map VStr strs) v = true <-> exists s, v = VStr s /\ In s strs.
Proof.
  rewrite includes_In, in_map_iff. split.
  - intros [s [<- Hs]]. exists s. split; [reflexivity | exact Hs].
  - intros [s [-> Hs]]. exists s. split; [reflexivity | exact Hs].
Qed.

(** X25. [pull(arr, ...args)] compares the elements with the pieces of
    the text [args.toString().split(',')], so it only ever takes strings
    away: every element that is not a string stays, whatever the
    arguments (a number is not pulled by itself), and so does every string
    that holds a comma.  For one or more strings without commas it leaves
    [without(arr, ...args)], an array of arguments counting like its
    elements; with no arguments at all it takes the empty strings away. *)
Theorem pull_spec (arr : list value) (args : list item) :
  (forall v, In v (pull arr args) -> In v arr)
  /\ (forall v, In v arr -> (forall s, v = VStr s -> has_comma s = true) ->
                In v (pull arr args))
  /\ (forall strs, strs <> [] -> Forall (fun s => has_comma s = false) strs ->
        args = map (fun s => Atom (VStr s)) strs ->
        pull arr args = without arr (map VStr strs))
  /\ pull arr [Arr args] = pull arr args
  /\ pull arr [] = without arr [VStr ""].
Proof.
  split; [| split; [| split; [| split]]].
  - intros v H. unfold pull in H. apply filter_In in H. exact (proj1 H).
  - intros v Hin Hv. unfold pull. apply filter_In. split; [exact Hin |].
    apply negb_true_iff.
    destruct (includes (map VStr (split_comma (toString args))) v) eqn:E;
      [| reflexivity].
    apply includes_strings in E. destruct E as [s [-> Hs]].
    pose proof (proj1 (Forall_forall _ _) (split_comma_pieces (toString args)) s Hs) as Hfree.
    cbv beta in Hfree. rewrite (Hv s eq_refl) in Hfree. discriminate.
  - intros strs Hne Hall ->. unfold pull, without, toString.
    rewrite map_map.
    assert (E : map (fun s : string => item_to_string (Atom (VStr s))) strs = strs).
    { clear. induction strs as [| s strs IH]; [reflexivity |].
      cbn [map]. rewrite IH. reflexivity. }
    rewrite E, split_comma_join by assumption. reflexivity.
  - unfold pull, toString. cbn [map item_to_string join]. reflexivity.
  - reflexivity.
Qed.

Lemma pull_spec_witness :
  pull [VStr "a"; VStr "b"; VStr "c"; VStr "a"; VStr "b"; VStr "c"]
       [Atom (VStr "a"); Atom (VStr "c")] = [VStr "b"; VStr "b"]
  /\ In (VNum 1) (pull [VNum 1; VNum 2; VNum 3] [Atom (VNum 1)]).
Proof.
  split.
  - rewrite (proj1 (proj2 (proj2
              (pull_spec [VStr "a"; VStr "b"; VStr "c"; VStr "a"; VStr "b"; VStr "c"]
                         [Atom (VStr "a"); Atom (VStr "c")])))
              ["a"; "c"]%string).
    + reflexivity.
    + discriminate.
    + repeat constructor.
    + reflexivity.
  - apply (proj1 (proj2 (pull_spec [VNum 1; VNum 2; VNum 3] [Atom (VNum 1)]))).
    + left. reflexivity.
    + intros s H. discriminate H.
Defined.

(** The source's examples, and what happens to numbers: the number 1 is
    left alone while its text is pulled. *)
Example pull_examples :
  pull [VStr "a"; VStr "b"; VStr "c"; VStr "a"; VStr "b"; VStr "c"]
       [Arr [Atom (VStr "a"); Atom (VStr "c")]] = [VStr "b"; VStr "b"]
  /\ pull [VNum 1; VNum 2; VNum 3] [Atom (VNum 1); Atom (VNum 2)] =
     [VNum 1; VNum 2; VNum 3]
  /\ pull [VStr "1"; VNum 1; VStr "x"] [Atom (VNum 1)] = [VNum 1; VStr "x"]
  /\ pull [VStr "a,b"; VStr "a"; VStr "b"] [Atom (VStr "a,b")] = [VStr "a,b"].
Proof. repeat split. Qed.

End ArraysFacts.
